(** * HexyoGlobal: the shared-state synchronisation protocol of server.js

    A shallow embedding of the two halves of the protocol:

    - [Server]: the authority of [server.js] lines 1-173 (the store
      [currentData], the registry [clients], [broadcast] and the
      'connection', 'message', 'close' and 'error' handlers);
    - [Client]: the browser script of lines 174-441 (the [ws.onmessage]
      reconciler, [finishEditing] and the listeners of the editable
      elements).

    Module [JS] holds the fragment of the language both halves rely on:
    the values [JSON.parse] can return, property access, the conversions
    [ToString] and [ToPropertyKey], truthiness and [JSON.stringify]. *)

From Stdlib Require Import List String Ascii Bool Arith Lia DecimalString.
Import ListNotations.
Open Scope string_scope.

(* ================================================================== *)
(** ** The JavaScript fragment *)
(* ================================================================== *)

Module JS.

(** Strings are sequences of code units; the model covers the code units
    below 256, one [ascii] each. *)

(** The values a handler can hold: what [JSON.parse] returns, plus
    [undefined], which a destructuring of a missing property yields.
    A number is carried by its canonical rendering (the result of
    [Number::toString]); the program only prints numbers, tests their
    truthiness and serialises them, and all three are functions of that
    rendering.  The properties of an object are listed in the order of
    [OrdinaryOwnPropertyKeys]; the values are those of a parse result, so
    the keys of one object are pairwise different. *)
#[local] Set Warnings "-register-all".
Inductive value : Type :=
| VUndefined
| VNull
| VBool (b : bool)
| VNum (repr : string)
| VStr (s : string)
| VArr (items : list value)
| VObj (props : list (string * value)).

Inductive js_error : Type :=
| TypeError
| SyntaxError
| TransportError.

(** A completion: a value, or a thrown exception. *)
Inductive exc (A : Type) : Type :=
| Ok (a : A)
| Throw (e : js_error).
Arguments Ok {A} a.
Arguments Throw {A} e.

Definition exc_bind {A B : Type} (r : exc A) (k : A -> exc B) : exc B :=
  match r with
  | Ok a => k a
  | Throw e => Throw e
  end.

(** Own properties of an object literal. *)
Fixpoint own (props : list (string * value)) (k : string) : option value :=
  match props with
  | [] => None
  | (k', v) :: rest => if String.eqb k' k then Some v else own rest k
  end.

Definition has_own (props : list (string * value)) (k : string) : bool :=
  match own props k with
  | Some _ => true
  | None => false
  end.

(** [obj[k] = v] on an ordinary object: an existing property keeps its
    place, a new one is appended. *)
Fixpoint assign (props : list (string * value)) (k : string) (v : value)
  : list (string * value) :=
  match props with
  | [] => [(k, v)]
  | (k', v') :: rest =>
      if String.eqb k' k then (k', v) :: rest else (k', v') :: assign rest k v
  end.

Definition keys (props : list (string * value)) : list string :=
  map fst props.

(** [v.k] for the property names the program reads ([type], [payload],
    [field], [value]): none of them is defined on a prototype, so a
    primitive or an array answers [undefined]; [null] and [undefined]
    throw. *)
Definition Get (v : value) (k : string) : exc value :=
  match v with
  | VUndefined | VNull => Throw TypeError
  | VObj props =>
      match own props k with
      | Some x => Ok x
      | None => Ok VUndefined
      end
  | _ => Ok VUndefined
  end.

(** [ToBoolean]. *)
Definition truthy (v : value) : bool :=
  match v with
  | VUndefined | VNull => false
  | VBool b => b
  | VNum r => negb (String.eqb r "0" || String.eqb r "NaN")
  | VStr s => negb (String.eqb s "")
  | VArr _ | VObj _ => true
  end.

(** [v === s] for a string [s]. *)
Definition strict_eq_string (v : value) (s : string) : bool :=
  match v with
  | VStr s' => String.eqb s' s
  | _ => false
  end.

(** [ToString].  An array joins its elements with a comma, [null] and
    [undefined] elements printing as the empty string.  An object parsed
    from JSON has no callable property: with an own [toString] neither
    [toString] nor [valueOf] gives a primitive and the conversion throws;
    without one [Object.prototype.toString] answers. *)
Fixpoint ToString (v : value) : exc string :=
  match v with
  | VUndefined => Ok "undefined"
  | VNull => Ok "null"
  | VBool true => Ok "true"
  | VBool false => Ok "false"
  | VNum r => Ok r
  | VStr s => Ok s
  | VArr items =>
      (fix join (l : list value) : exc string :=
         match l with
         | [] => Ok ""
         | x :: rest =>
             exc_bind
               (match x with
                | VUndefined | VNull => Ok ""
                | _ => ToString x
                end)
               (fun sx =>
                  match rest with
                  | [] => Ok sx
                  | _ :: _ => exc_bind (join rest) (fun sr => Ok (sx ++ "," ++ sr))
                  end)
         end) items
  | VObj props =>
      if has_own props "toString" then Throw TypeError else Ok "[object Object]"
  end.

(** [ToPropertyKey]: no JSON value is a symbol. *)
Definition ToPropertyKey (v : value) : exc string := ToString v.

(** [obj.hasOwnProperty(v)]. *)
Definition hasOwnProperty (props : list (string * value)) (v : value) : exc bool :=
  exc_bind (ToPropertyKey v) (fun k => Ok (has_own props k)).

(** *** JSON.stringify *)

Definition dquote : string := String (ascii_of_nat 34) EmptyString.

Definition hex_digit (n : nat) : string :=
  String (nth n (list_ascii_of_string "0123456789abcdef") "0"%char) EmptyString.

(** [QuoteJSONString], one code unit at a time. *)
Definition quote_unit (c : ascii) : string :=
  let n := nat_of_ascii c in
  if Nat.eqb n 8 then "\b"
  else if Nat.eqb n 9 then "\t"
  else if Nat.eqb n 10 then "\n"
  else if Nat.eqb n 12 then "\f"
  else if Nat.eqb n 13 then "\r"
  else if Nat.eqb n 34 then "\" ++ dquote
  else if Nat.eqb n 92 then "\\"
  else if Nat.ltb n 32 then "\u00" ++ hex_digit (n / 16) ++ hex_digit (n mod 16)
  else String c EmptyString.

Fixpoint quote_units (s : string) : string :=
  match s with
  | EmptyString => EmptyString
  | String c rest => quote_unit c ++ quote_units rest
  end.

Definition QuoteJSONString (s : string) : string :=
  dquote ++ quote_units s ++ dquote.

(** [SerializeJSONProperty]: [None] stands for [undefined].  A property
    whose value is [undefined] is left out of its object; an [undefined]
    array element prints as [null]; an infinite number prints as [null]. *)
Fixpoint serialize (v : value) : option string :=
  match v with
  | VUndefined => None
  | VNull => Some "null"
  | VBool true => Some "true"
  | VBool false => Some "false"
  | VNum r =>
      if String.eqb r "Infinity" || String.eqb r "-Infinity" || String.eqb r "NaN"
      then Some "null" else Some r
  | VStr s => Some (QuoteJSONString s)
  | VArr items =>
      Some ("[" ++
            (fix elements (l : list value) : string :=
               match l with
               | [] => ""
               | x :: rest =>
                   let sx := match serialize x with
                             | Some s => s
                             | None => "null"
                             end in
                   match rest with
                   | [] => sx
                   | _ :: _ => sx ++ "," ++ elements rest
                   end
               end) items ++ "]")
  | VObj props =>
      Some ("{" ++
            (fix members (l : list (string * value)) (first : bool) : string :=
               match l with
               | [] => ""
               | (k, x) :: rest =>
                   match serialize x with
                   | None => members rest first
                   | Some s =>
                       (if first then "" else ",") ++
                       QuoteJSONString k ++ ":" ++ s ++ members rest false
                   end
               end) props true ++ "}")
  end.

(** [JSON.stringify] of an object literal, which always yields a string. *)
Definition JSON_stringify (props : list (string * value)) : string :=
  match serialize (VObj props) with
  | Some s => s
  | None => ""
  end.

(** The two wire messages, as the object literals the source builds. *)
Definition initial_state_message (data : list (string * value))
  : list (string * value) :=
  [("type", VStr "initial_state"); ("payload", VObj data)].

Definition update_message (field : value) (v : value) : list (string * value) :=
  [("type", VStr "update"); ("payload", VObj [("field", field); ("value", v)])].

(** A valid [update] message in the sense of the wire schema: an object
    of type ['update'] whose payload is an object with a string [field]
    and a string [value]; the recogniser returns the two strings. *)
Definition valid_update (m : value) : option (string * string) :=
  match m with
  | VObj props =>
      match own props "type", own props "payload" with
      | Some (VStr t), Some (VObj payload) =>
          if String.eqb t "update" then
            match own payload "field", own payload "value" with
            | Some (VStr f), Some (VStr v) => Some (f, v)
            | _, _ => None
            end
          else None
      | _, _ => None
      end
  | _ => None
  end.

(** A [SharedState] in the sense of the data model: every value is a
    string; the recogniser returns the field-value pairs. *)
Fixpoint shared_state (props : list (string * value)) : option (list (string * string)) :=
  match props with
  | [] => Some []
  | (k, VStr v) :: rest =>
      match shared_state rest with
      | Some l => Some ((k, v) :: l)
      | None => None
      end
  | _ :: _ => None
  end.


(** *** WebSocket.readyState *)

Inductive ready_state : Type :=
| CONNECTING
| OPEN
| CLOSING
| CLOSED.

Definition is_open (r : ready_state) : bool :=
  match r with
  | OPEN => true
  | _ => false
  end.

(** *** Handlers run in a state-and-exception monad

    A handler threads the process state [S] and may throw after it has
    already changed the state; [try_catch] resumes from the state reached
    at the throw. *)

Definition M (S A : Type) : Type := S -> S * exc A.

Definition ret {S A : Type} (a : A) : M S A := fun st => (st, Ok a).

Definition bind {S A B : Type} (m : M S A) (k : A -> M S B) : M S B :=
  fun st =>
    match m st with
    | (st', Ok a) => k a st'
    | (st', Throw e) => (st', Throw e)
    end.

Definition lift {S A : Type} (r : exc A) : M S A := fun st => (st, r).

Definition effect {S : Type} (f : S -> S) : M S unit := fun st => (f st, Ok tt).

Definition read {S A : Type} (f : S -> A) : M S A := fun st => (st, Ok (f st)).

Definition try_catch {S : Type} (body : M S unit) (handler : js_error -> M S unit)
  : M S unit :=
  fun st =>
    match body st with
    | (st', Ok tt) => (st', Ok tt)
    | (st', Throw e) => handler e st'
    end.

Definition exec {S : Type} (m : M S unit) (st : S) : S := fst (m st).

Fixpoint forEach {S A : Type} (f : A -> M S unit) (l : list A) : M S unit :=
  match l with
  | [] => ret tt
  | x :: rest => bind (f x) (fun _ => forEach f rest)
  end.

Notation "x <- m ;; k" := (bind m (fun x => k))
  (at level 61, m at next level, right associativity).
Notation "m ;;; k" := (bind m (fun _ => k))
  (at level 61, right associativity).

End JS.

(* ================================================================== *)
(** ** The authority (server.js, lines 1-173) *)
(* ================================================================== *)

Module Server.
Import JS.

(** A connection is an opaque handle: the identity of a [ws] object. *)
Definition conn : Type := nat.

(** One constructor per [console] call of the server. *)
Inductive log_line : Type :=
| LogClientConnected
| LogSentInitialState
| ErrInitialStateFailed (e : js_error)
| LogReceived
| LogUpdated (field value : string)
| WarnUnknownField (field : string)
| LogNonUpdate (type : string)
| ErrProcessFailed (e : js_error)
| LogDisconnected
| ErrSocket
| LogBroadcasting (messageString : string)
| ErrSendFailed
| WarnStaleClient.

(** The process state.  [currentData] and [clients] are the two globals
    of the source; [clients] is a [Set], kept as the list of its members
    in insertion order.  [listening] holds the connections whose
    'message', 'close' and 'error' listeners the 'connection' handler has
    attached.  [readyState] is the [readyState] property of every socket,
    which the transport changes between events.  [wire] is the sequence of
    frames handed to [send], oldest first, and [console] the sequence of
    console lines. *)
Record server : Type := mkServer {
  currentData : list (string * value);
  clients : list conn;
  listening : list conn;
  readyState : conn -> ready_state;
  wire : list (conn * string);
  console : list log_line
}.

Definition initial_currentData : list (string * value) :=
  [("amount", VStr "LOADING..."); ("name", VStr "LOADING...")].

Definition initial_server (rs : conn -> ready_state) : server :=
  {| currentData := initial_currentData;
     clients := [];
     listening := [];
     readyState := rs;
     wire := [];
     console := [] |}.

(** *** Primitive effects *)

Definition log (l : log_line) (st : server) : server :=
  {| currentData := currentData st;
     clients := clients st;
     listening := listening st;
     readyState := readyState st;
     wire := wire st;
     console := console st ++ [l] |}.

Definition set_clients (cs : list conn) (st : server) : server :=
  {| currentData := currentData st;
     clients := cs;
     listening := listening st;
     readyState := readyState st;
     wire := wire st;
     console := console st |}.

Definition mem (c : conn) (cs : list conn) : bool := existsb (Nat.eqb c) cs.

(** [clients.add(ws)] and [clients.delete(ws)]. *)
Definition clients_add (ws : conn) (st : server) : server :=
  if mem ws (clients st) then st else set_clients (clients st ++ [ws]) st.

Definition clients_delete (ws : conn) (st : server) : server :=
  set_clients (filter (fun c => negb (Nat.eqb c ws)) (clients st)) st.

Definition attach_listeners (ws : conn) (st : server) : server :=
  {| currentData := currentData st;
     clients := clients st;
     listening := if mem ws (listening st) then listening st
                  else listening st ++ [ws];
     readyState := readyState st;
     wire := wire st;
     console := console st |}.

Definition set_field (k : string) (v : value) (st : server) : server :=
  {| currentData := assign (currentData st) k v;
     clients := clients st;
     listening := listening st;
     readyState := readyState st;
     wire := wire st;
     console := console st |}.

(** A frame accepted by [ws.send]. *)
Definition send (ws : conn) (data : string) (st : server) : server :=
  {| currentData := currentData st;
     clients := clients st;
     listening := listening st;
     readyState := readyState st;
     wire := wire st ++ [(ws, data)];
     console := console st |}.

(** [ws.close()]: a socket that is not yet closed starts closing. *)
Definition close_socket (ws : conn) (st : server) : server :=
  {| currentData := currentData st;
     clients := clients st;
     listening := listening st;
     readyState := fun c =>
                     if Nat.eqb c ws
                     then match readyState st c with
                          | CLOSED => CLOSED
                          | _ => CLOSING
                          end
                     else readyState st c;
     wire := wire st;
     console := console st |}.

Definition set_readyState (ws : conn) (r : ready_state) (st : server) : server :=
  {| currentData := currentData st;
     clients := clients st;
     listening := listening st;
     readyState := fun c => if Nat.eqb c ws then r else readyState st c;
     wire := wire st;
     console := console st |}.

(** *** broadcast (lines 120-142) *)

Definition is_sender (sender : option conn) (client : conn) : bool :=
  match sender with
  | Some s => Nat.eqb client s
  | None => false
  end.

(** The body of the [forEach] callback for one member. *)
Definition broadcast_visit (messageString : string) (sender : option conn)
    (client : conn) (st : server) : server :=
  if negb (is_sender sender client) && is_open (readyState st client)
  then send client messageString st
  else if is_sender sender client
  then st
  else if negb (is_open (readyState st client))
  then clients_delete client (log WarnStaleClient st)
  else st.

(** [Set.prototype.forEach] visits the members in insertion order; the
    callback deletes at most the member being visited, so the members
    visited are those present when the loop starts. *)
Definition broadcast (message : list (string * value)) (sender : option conn)
    (st : server) : server :=
  let messageString := JSON_stringify message in
  let st1 := log (LogBroadcasting messageString) st in
  fold_left (fun s client => broadcast_visit messageString sender client s)
            (clients st1) st1.

(** *** The 'connection' handler (lines 38-57) *)

(** [send_outcome] is what the transport answers to the one [ws.send] of
    the handler: [Ok tt] when it takes the frame, [Throw e] when the call
    throws. *)
Definition send_initial_state (ws : conn) (send_outcome : exc unit)
  : M server unit :=
  try_catch
    (data <- read currentData ;;
     lift send_outcome ;;;
     effect (send ws (JSON_stringify (initial_state_message data))) ;;;
     effect (log LogSentInitialState))
    (fun e => effect (log (ErrInitialStateFailed e))).

Definition on_connection (ws : conn) (send_outcome : exc unit) (st : server)
  : server :=
  exec (effect (log LogClientConnected) ;;;
        effect (clients_add ws) ;;;
        send_initial_state ws send_outcome ;;;
        effect (attach_listeners ws)) st.

(** *** The 'message' handler (lines 60-99) *)

(** The [else] branch of line 90. *)
Definition log_non_update (parsedMessage : value) : M server unit :=
  type <- lift (Get parsedMessage "type") ;;
  s <- lift (ToString (if truthy type then type else VStr "unknown")) ;;
  effect (log (LogNonUpdate s)).

(** Lines 62-93, the body of the [try]; [parsed] is the completion of
    [JSON.parse(message.toString())]. *)
Definition process_message (ws : conn) (parsed : exc value) : M server unit :=
  effect (log LogReceived) ;;;
  parsedMessage <- lift parsed ;;
  type <- lift (Get parsedMessage "type") ;;
  if strict_eq_string type "update" then
    payload <- lift (Get parsedMessage "payload") ;;
    if truthy payload then
      field <- lift (Get payload "field") ;;
      value <- lift (Get payload "value") ;;
      data <- read currentData ;;
      known <- lift (hasOwnProperty data field) ;;
      if (known : bool) then
        key <- lift (ToPropertyKey field) ;;
        effect (set_field key value) ;;;
        sf <- lift (ToString field) ;;
        sv <- lift (ToString value) ;;
        effect (log (LogUpdated sf sv)) ;;;
        effect (broadcast (update_message field value) (Some ws))
      else
        sf <- lift (ToString field) ;;
        effect (log (WarnUnknownField sf))
    else log_non_update parsedMessage
  else log_non_update parsedMessage.

Definition on_message (ws : conn) (parsed : exc value) (st : server) : server :=
  exec (try_catch (process_message ws parsed)
                  (fun e => effect (log (ErrProcessFailed e)))) st.

(** *** The 'close' and 'error' handlers (lines 102-114) *)

Definition on_close (ws : conn) (st : server) : server :=
  clients_delete ws (log LogDisconnected st).

Definition on_error (ws : conn) (st : server) : server :=
  close_socket ws (clients_delete ws (log ErrSocket st)).

(** *** The event loop *)

(** What the transport delivers to the process.  Every 'connection'
    event brings a socket object of its own, so the handle of a
    [Connection] event is one no earlier event has brought.  [SendFailed]
    is the callback of a [client.send] of [broadcast] reporting an error;
    [ReadyState] is a socket changing state underneath the process. *)
Inductive event : Type :=
| Connection (ws : conn) (send_outcome : exc unit)
| Message (ws : conn) (parsed : exc value)
| Close (ws : conn)
| Error (ws : conn)
| SendFailed (ws : conn)
| ReadyState (ws : conn) (r : ready_state).

(** A socket emits 'message', 'close' and 'error' only to the listeners
    the 'connection' handler attached to it. *)
Definition step (st : server) (e : event) : server :=
  match e with
  | Connection ws o => on_connection ws o st
  | Message ws parsed =>
      if mem ws (listening st) then on_message ws parsed st else st
  | Close ws => if mem ws (listening st) then on_close ws st else st
  | Error ws => if mem ws (listening st) then on_error ws st else st
  | SendFailed ws => log ErrSendFailed st
  | ReadyState ws r => set_readyState ws r st
  end.

Definition run (st : server) (events : list event) : server :=
  fold_left step events st.

(** *** The 'connection' handler, with the order of its effects *)

(** The effects of the handler that touch the registry, the socket, the
    console or the listeners, in the order in which the statements of
    lines 38-116 perform them.  [OpSend] is the call of [ws.send] with
    its argument and what the transport answered. *)
Inductive op : Type :=
| OpLog (l : log_line)
| OpRegister (ws : conn)
| OpSend (ws : conn) (data : string) (send_outcome : exc unit)
| OpAttach (ws : conn).

(** One statement: its effect on the state, and its entry in the record
    of what was done. *)
Definition act (o : op) (f : server -> server) : M (server * list op) unit :=
  effect (fun s => (f (fst s), (snd s ++ [o])%list)).

(** [ws.send(data)]: the frame is on the wire when the call returns. *)
Definition call_send (ws : conn) (data : string) (send_outcome : exc unit)
  : M (server * list op) unit :=
  fun s =>
    match send_outcome with
    | Ok _ =>
        ((send ws data (fst s), (snd s ++ [OpSend ws data send_outcome])%list),
         Ok tt)
    | Throw e =>
        ((fst s, (snd s ++ [OpSend ws data send_outcome])%list), Throw e)
    end.

Definition send_initial_state_traced (ws : conn) (send_outcome : exc unit)
  : M (server * list op) unit :=
  try_catch
    (data <- read (fun s => currentData (fst s)) ;;
     call_send ws (JSON_stringify (initial_state_message data)) send_outcome ;;;
     act (OpLog LogSentInitialState) (log LogSentInitialState))
    (fun e => act (OpLog (ErrInitialStateFailed e))
                  (log (ErrInitialStateFailed e))).

(** The 'connection' handler (lines 38-116) again, statement by
    statement, keeping the record of its effects. *)
Definition on_connection_traced (ws : conn) (send_outcome : exc unit)
    (st : server) : server * list op :=
  exec (act (OpLog LogClientConnected) (log LogClientConnected) ;;;
        act (OpRegister ws) (clients_add ws) ;;;
        send_initial_state_traced ws send_outcome ;;;
        act (OpAttach ws) (attach_listeners ws)) (st, []).

(** *** The text of a hydration frame *)

Definition quoted (s : string) : string := dquote ++ s ++ dquote.

(** The member a field of the store contributes to the payload: its
    quoted name, a colon and the JSON text of its value, or nothing when
    the value has no JSON text. *)
Definition member_text (kv : string * value) : list string :=
  match serialize (snd kv) with
  | Some s => [QuoteJSONString (fst kv) ++ ":" ++ s]
  | None => []
  end.

(** The frame of a hydration, character by character: an object with
    the [type] ['initial_state'] and a [payload] object holding the
    members of [data], separated by commas. *)
Definition hydration_text (data : list (string * value)) : string :=
  "{" ++ quoted "type" ++ ":" ++ quoted "initial_state" ++ ","
  ++ quoted "payload" ++ ":{"
  ++ String.concat "," (flat_map member_text data) ++ "}}".

(** The frame of a hydration that carries both fields of the store, with
    [sa] and [sn] the JSON texts of their values. *)
Definition snapshot_text (sa sn : string) : string :=
  "{" ++ quoted "type" ++ ":" ++ quoted "initial_state" ++ ","
  ++ quoted "payload" ++ ":{"
  ++ quoted "amount" ++ ":" ++ sa ++ "," ++ quoted "name" ++ ":" ++ sn ++ "}}".

(** *** Vocabulary of the statements about the authority *)

(** The condition of line 70, [parsedMessage.type === 'update' &&
    parsedMessage.payload], on a parsed message. *)
Definition is_update_with_payload (m : value) : bool :=
  match Get m "type" with
  | Ok type =>
      strict_eq_string type "update"
      && match Get m "payload" with
         | Ok payload => truthy payload
         | Throw _ => false
         end
  | Throw _ => false
  end.

(** The property key an update-with-payload message names, when the
    conversion of its [field] to a key returns. *)
Definition update_field (m : value) : option string :=
  if is_update_with_payload m then
    match exc_bind (Get m "payload") (fun payload =>
          exc_bind (Get payload "field") ToPropertyKey) with
    | Ok k => Some k
    | Throw _ => None
    end
  else None.

(** The frames handed to [send] between two states of one run. *)
Definition sent_since (before after : server) : list (conn * string) :=
  skipn (List.length (wire before)) (wire after).

Definition is_broadcast_line (l : log_line) : bool :=
  match l with
  | LogBroadcasting _ => true
  | _ => false
  end.

(** The number of [broadcast] calls so far: each call prints exactly one
    'Broadcasting' line (line 122), and nothing else prints one. *)
Definition broadcast_calls (st : server) : nat :=
  List.length (filter is_broadcast_line (console st)).

(** The 'message' handler run on a sequence of parsed messages, each with
    the connection it arrived on. *)
Definition process (st : server) (msgs : list (conn * value)) : server :=
  fold_left (fun s wm => on_message (fst wm) (Ok (snd wm)) s) msgs st.

(** A received message that is a valid update of a field of the store. *)
Definition accepted_by (st : server) (wm : conn * value) : Prop :=
  exists f v, valid_update (snd wm) = Some (f, v)
              /\ has_own (currentData st) f = true.

(** The value of the last valid update of [msgs] that names [f]. *)
Fixpoint last_value (f : string) (msgs : list (conn * value)) : option string :=
  match msgs with
  | [] => None
  | (_, m) :: rest =>
      match last_value f rest with
      | Some v => Some v
      | None =>
          match valid_update m with
          | Some (f', v) => if String.eqb f' f then Some v else None
          | None => None
          end
      end
  end.

(** The members [broadcast] sends to, and those it reclaims. *)
Definition receives (st : server) (sender : option conn) (c : conn) : bool :=
  negb (is_sender sender c) && is_open (readyState st c).

Definition reclaimed (st : server) (sender : option conn) (c : conn) : bool :=
  negb (is_sender sender c) && negb (is_open (readyState st c)).

(** A message that is thrown away leaves one more console line and
    nothing else. *)
Definition discarded (st st' : server) : Prop :=
  exists line,
    st' = log line (log LogReceived st) /\ is_broadcast_line line = false.

(** The two ways an update of a known key ends: the store is written and
    the update is broadcast, or the store is written and the conversion of
    the value for the console line of line 77 throws before the
    broadcast. *)
Definition stored (ws : conn) (key : string) (field v : value)
    (st st' : server) : Prop :=
  (exists sf sv,
      st' = broadcast (update_message field v) (Some ws)
              (log (LogUpdated sf sv) (set_field key v (log LogReceived st))))
  \/ (exists e,
      st' = log (ErrProcessFailed e) (set_field key v (log LogReceived st))).

(** A frame of the protocol: the serialisation of an [initial_state]
    message over the two fields of the store, or of an [update] message. *)
Definition protocol_frame (d : string) : Prop :=
  (exists data, keys data = ["amount"; "name"]
                /\ d = JSON_stringify (initial_state_message data))
  \/ (exists field v, d = JSON_stringify (update_message field v)).

(** *** A small scenario *)

(** Three registered connections, the third one closed underneath the
    process, and three valid updates. *)
Definition demo_sockets (c : conn) : ready_state :=
  match c with
  | 3 => CLOSED
  | _ => OPEN
  end.

Definition demo_server : server :=
  run (initial_server demo_sockets)
      [Connection 1 (Ok tt); Connection 2 (Ok tt); Connection 3 (Ok tt)].

Definition demo_updates : list (conn * value) :=
  [(1, VObj (update_message (VStr "amount") (VStr "250")));
   (2, VObj (update_message (VStr "name") (VStr "Ann")));
   (1, VObj (update_message (VStr "amount") (VStr "300")))].

End Server.

(* ================================================================== *)
(** ** The viewer (server.js, lines 174-441) *)
(* ================================================================== *)

Module Client.
Import JS.

(** One [.info-card__content[data-field]] element of the page.  The
    script compares the [contenteditable] attribute with ['true'] and
    writes ['true'] or ['false'] to it, so the attribute is kept as the
    outcome of that comparison. *)
Record element : Type := mkElement {
  data_field : string;
  textContent : string;
  contenteditable : bool
}.

(** One constructor per [console] call of the editing and socket code. *)
Inductive log_line : Type :=
| LogMessageReceived
| LogInitialStateApplied
| LogUpdatedField (field value : string)
| LogSkippingUpdate (field : string)
| ErrMessageFailed (e : js_error)
| LogEditCancelledOrNoChange (field : string)
| LogSentUpdate (field value : string)
| WarnNotOpenReverting
| WarnCannotEdit
| LogEditCancelledByEscape (field : string).

(** The state of the page script: the editable elements in document
    order, the variable [originalEditValue] shared by all of them, the
    variable [ws] ([None] is [null], otherwise the socket's [readyState]),
    the frames handed to [ws.send] and the console. *)
Record client : Type := mkClient {
  document : list element;
  originalEditValue : string;
  ws : option ready_state;
  wire : list string;
  console : list log_line
}.

(** The state once the [DOMContentLoaded] callback has run:
    [connectWebSocket] has created the socket. *)
Definition initial_client (doc : list element) : client :=
  {| document := doc;
     originalEditValue := "";
     ws := Some CONNECTING;
     wire := [];
     console := [] |}.

(** *** Primitive effects *)

Definition log (l : log_line) (cl : client) : client :=
  {| document := document cl;
     originalEditValue := originalEditValue cl;
     ws := ws cl;
     wire := wire cl;
     console := console cl ++ [l] |}.

Definition set_document (doc : list element) (cl : client) : client :=
  {| document := doc;
     originalEditValue := originalEditValue cl;
     ws := ws cl;
     wire := wire cl;
     console := console cl |}.

Definition set_originalEditValue (s : string) (cl : client) : client :=
  {| document := document cl;
     originalEditValue := s;
     ws := ws cl;
     wire := wire cl;
     console := console cl |}.

Definition set_ws (w : option ready_state) (cl : client) : client :=
  {| document := document cl;
     originalEditValue := originalEditValue cl;
     ws := w;
     wire := wire cl;
     console := console cl |}.

Definition send (data : string) (cl : client) : client :=
  {| document := document cl;
     originalEditValue := originalEditValue cl;
     ws := ws cl;
     wire := wire cl ++ [data];
     console := console cl |}.

Fixpoint update_nth (i : nat) (f : element -> element) (doc : list element)
  : list element :=
  match doc, i with
  | [], _ => []
  | e :: rest, 0 => f e :: rest
  | e :: rest, S i' => e :: update_nth i' f rest
  end.

Definition with_text (s : string) (e : element) : element :=
  {| data_field := data_field e; textContent := s;
     contenteditable := contenteditable e |}.

Definition with_editable (b : bool) (e : element) : element :=
  {| data_field := data_field e; textContent := textContent e;
     contenteditable := b |}.

(** [element.textContent = s] and
    [element.setAttribute('contenteditable', ...)] on the [i]-th element. *)
Definition set_textContent (i : nat) (s : string) (cl : client) : client :=
  set_document (update_nth i (with_text s) (document cl)) cl.

Definition set_contenteditable (i : nat) (b : bool) (cl : client) : client :=
  set_document (update_nth i (with_editable b) (document cl)) cl.

(** What the [i]-th element displays, [None] when there is no such
    element. *)
Definition displayed (cl : client) (i : nat) : option string :=
  option_map textContent (nth_error (document cl) i).

Definition editing (cl : client) (i : nat) : bool :=
  match nth_error (document cl) i with
  | Some e => contenteditable e
  | None => false
  end.

(** [ws && ws.readyState === WebSocket.OPEN]. *)
Definition connected (cl : client) : bool :=
  match ws cl with
  | Some r => is_open r
  | None => false
  end.

(** *** The DOM calls *)

(** Code units that end or escape a double-quoted CSS string: NUL, line
    feed, form feed, carriage return, the quote and the backslash. *)
Definition selector_unsafe (c : ascii) : bool :=
  let n := nat_of_ascii c in
  Nat.eqb n 0 || Nat.eqb n 10 || Nat.eqb n 12 || Nat.eqb n 13
  || Nat.eqb n 34 || Nat.eqb n 92.

Definition selector_safe (f : string) : bool :=
  forallb (fun c => negb (selector_unsafe c)) (list_ascii_of_string f).

Fixpoint find_field (doc : list element) (f : string) : option nat :=
  match doc with
  | [] => None
  | e :: rest =>
      if String.eqb (data_field e) f then Some 0
      else option_map S (find_field rest f)
  end.

(** [document.querySelector(`.info-card__content[data-field="${f}"]`)].
    The name is spliced, unescaped, into a quoted selector.  When it is
    [selector_safe] the text is the attribute test for that name, and the
    answer is the first element, in document order, whose [data-field] is
    the name.  A name that is not safe ends or escapes the quoted string,
    and what the engine does then depends on the text that results: for a
    name such as [x] followed by a quote the text is no selector and the
    call throws a [SyntaxError], which is what the model answers for
    every unsafe name; for a name crafted so that the text is a selector
    again the engine answers with an element of that selector, possibly
    one outside the editable elements, and the model does not follow it.
    The statements that depend on the lookup are therefore made for safe
    names, or for a name whose splice is no selector. *)
Definition querySelector (doc : list element) (f : string) : exc (option nat) :=
  if selector_safe f then Ok (find_field doc f) else Throw SyntaxError.

(** The conversion of a value assigned to [textContent], a nullable
    [DOMString]: [null] and [undefined] give the empty text. *)
Definition DOMString_of (v : value) : exc string :=
  match v with
  | VUndefined | VNull => Ok ""
  | _ => ToString v
  end.

Definition index_key (n : nat) : string :=
  NilEmpty.string_of_uint (Nat.to_uint n).

Fixpoint indexed {A : Type} (n : nat) (l : list A) : list (string * A) :=
  match l with
  | [] => []
  | x :: rest => (index_key n, x) :: indexed (S n) rest
  end.

(** [Object.entries] of a truthy value. *)
Definition Object_entries (v : value) : list (string * value) :=
  match v with
  | VObj props => props
  | VArr items => indexed 0 items
  | VStr s =>
      indexed 0 (map (fun c => VStr (String c EmptyString)) (list_ascii_of_string s))
  | _ => []
  end.

(** [String.prototype.trim] over the code units below 256. *)
Definition is_space (c : ascii) : bool :=
  let n := nat_of_ascii c in
  (Nat.leb 9 n && Nat.leb n 13) || Nat.eqb n 32 || Nat.eqb n 160.

Fixpoint trim_start (l : list ascii) : list ascii :=
  match l with
  | [] => []
  | c :: rest => if is_space c then trim_start rest else l
  end.

Definition trim (s : string) : string :=
  string_of_list_ascii
    (rev (trim_start (rev (trim_start (list_ascii_of_string s))))).

(** *** ws.onmessage (lines 271-305) *)

(** [message.type === tag && message.payload], as a condition. *)
Definition has_shape (message : value) (tag : string) : M client bool :=
  type <- lift (Get message "type") ;;
  if strict_eq_string type tag then
    payload <- lift (Get message "payload") ;;
    ret (truthy payload)
  else ret false.

(** The callback of the [forEach] of line 278. *)
Definition hydrate_entry (entry : string * value) : M client unit :=
  let (field, v) := entry in
  doc <- read document ;;
  elementToUpdate <- lift (querySelector doc field) ;;
  match elementToUpdate with
  | Some i =>
      s <- lift (DOMString_of v) ;;
      effect (set_textContent i s)
  | None => ret tt
  end.

(** Lines 288-299. *)
Definition apply_update (payload : value) : M client unit :=
  field <- lift (Get payload "field") ;;
  v <- lift (Get payload "value") ;;
  sf <- lift (ToString field) ;;
  doc <- read document ;;
  elementToUpdate <- lift (querySelector doc sf) ;;
  match elementToUpdate with
  | Some i =>
      isEditing <- read (fun cl => editing cl i) ;;
      text <- read (fun cl => displayed cl i) ;;
      if negb (match text with
               | Some t => strict_eq_string v t
               | None => false
               end) && negb isEditing
      then
        s <- lift (DOMString_of v) ;;
        effect (set_textContent i s) ;;;
        sv <- lift (ToString v) ;;
        effect (log (LogUpdatedField sf sv))
      else if (isEditing : bool) then effect (log (LogSkippingUpdate sf))
      else ret tt
  | None => ret tt
  end.

(** The body of the [try]; [parsed] is the completion of
    [JSON.parse(event.data)]. *)
Definition process_message (parsed : exc value) : M client unit :=
  message <- lift parsed ;;
  effect (log LogMessageReceived) ;;;
  is_initial <- has_shape message "initial_state" ;;
  if (is_initial : bool) then
    payload <- lift (Get message "payload") ;;
    forEach hydrate_entry (Object_entries payload) ;;;
    effect (log LogInitialStateApplied)
  else
    is_update <- has_shape message "update" ;;
    if (is_update : bool) then
      payload <- lift (Get message "payload") ;;
      apply_update payload
    else ret tt.

Definition on_message (parsed : exc value) (cl : client) : client :=
  exec (try_catch (process_message parsed)
                  (fun e => effect (log (ErrMessageFailed e)))) cl.

(** *** finishEditing (lines 320-350) *)

Definition finishEditing (i : nat) (cl : client) : client :=
  match nth_error (document cl) i with
  | None => cl
  | Some element =>
      if negb (contenteditable element) then cl
      else
        let cl1 := set_contenteditable i false cl in
        let newValue := trim (textContent element) in
        let field := data_field element in
        if String.eqb newValue "" || String.eqb newValue (originalEditValue cl1)
        then
          log (LogEditCancelledOrNoChange field)
              (set_textContent i (originalEditValue cl1) cl1)
        else if connected cl1
        then
          log (LogSentUpdate field newValue)
              (send (JSON_stringify
                       (update_message (VStr field) (VStr newValue))) cl1)
        else
          set_textContent i (originalEditValue cl1)
                          (log WarnNotOpenReverting cl1)
  end.

(** *** The listeners of the editable elements (lines 396-436) *)

Definition on_dblclick (i : nat) (cl : client) : client :=
  match nth_error (document cl) i with
  | None => cl
  | Some element =>
      if contenteditable element || negb (connected cl)
      then log WarnCannotEdit cl
      else
        set_contenteditable i true
          (set_originalEditValue (textContent element) cl)
  end.

Inductive key : Type :=
| Enter
| Escape
| OtherKey.

Definition on_keydown (i : nat) (k : key) (cl : client) : client :=
  match nth_error (document cl) i with
  | None => cl
  | Some element =>
      match k with
      | Enter => finishEditing i cl
      | Escape =>
          log (LogEditCancelledByEscape (data_field element))
              (set_contenteditable i false
                 (set_textContent i (originalEditValue cl) cl))
      | OtherKey => cl
      end
  end.

(** *** The event loop *)

(** What the browser delivers to the script.  [BlurTimeout i] is the
    timer armed by the 'blur' listener of element [i] firing;
    [Input i text] is the user changing the text of element [i], which the
    browser allows while the element is editable; [SocketState r] is the
    socket changing its [readyState]. *)
Inductive event : Type :=
| SocketMessage (parsed : exc value)
| SocketState (r : ready_state)
| DblClick (i : nat)
| KeyDown (i : nat) (k : key)
| BlurTimeout (i : nat)
| Input (i : nat) (text : string).

Definition step (cl : client) (e : event) : client :=
  match e with
  | SocketMessage parsed => on_message parsed cl
  | SocketState r =>
      match ws cl with
      | Some _ => set_ws (Some r) cl
      | None => cl
      end
  | DblClick i => on_dblclick i cl
  | KeyDown i k => on_keydown i k cl
  | BlurTimeout i => finishEditing i cl
  | Input i text => if editing cl i then set_textContent i text cl else cl
  end.

Definition run (cl : client) (events : list event) : client :=
  fold_left step events cl.

(** *** Vocabulary of the statements about the viewer *)

(** The element bound to field [f] is element [i]. *)
Definition bound (cl : client) (f : string) (i : nat) : Prop :=
  selector_safe f = true /\ find_field (document cl) f = Some i.

(** The condition [message.type === tag && message.payload] of lines 277
    and 287 as a test on a parsed message that is not [null]. *)
Definition shape (m : value) (tag : string) : bool :=
  match Get m "type", Get m "payload" with
  | Ok type, Ok payload => strict_eq_string type tag && truthy payload
  | _, _ => false
  end.

Definition is_commit (e : event) (i : nat) : Prop :=
  e = KeyDown i Enter \/ e = BlurTimeout i.

(** Events that neither start nor end an edit: typing, and anything the
    socket delivers. *)
Definition typing_or_message (e : event) : Prop :=
  match e with
  | Input _ _ | SocketMessage _ => True
  | _ => False
  end.

(** Every name a parsed message makes [ws.onmessage] splice into a
    selector is [selector_safe]: the keys of the payload of an
    [initial_state], the converted [field] of an [update]. *)
Definition selectors_safe (parsed : exc value) : bool :=
  match parsed with
  | Throw _ => true
  | Ok m =>
      if shape m "initial_state" then
        match Get m "payload" with
        | Ok payload =>
            forallb (fun kv => selector_safe (fst kv)) (Object_entries payload)
        | Throw _ => true
        end
      else if shape m "update" then
        match exc_bind (Get m "payload")
                (fun payload => exc_bind (Get payload "field") ToString) with
        | Ok f => selector_safe f
        | Throw _ => true
        end
      else true
  end.

(** A text with no white space at either end. *)
Definition trimmed (s : string) : Prop := trim s = s.

(** Code units that do not begin with white space. *)
Definition no_leading_space (l : list ascii) : Prop :=
  match l with
  | [] => True
  | c :: _ => is_space c = false
  end.

(** Two states of the page that differ at most in the text of elements
    and in the console. *)
Definition same_but_text (cl cl' : client) : Prop :=
  wire cl' = wire cl
  /\ ws cl' = ws cl
  /\ originalEditValue cl' = originalEditValue cl
  /\ map data_field (document cl') = map data_field (document cl)
  /\ map contenteditable (document cl') = map contenteditable (document cl).

(** A computation that changes at most the text of elements and the
    console, whether it returns or throws. *)
Definition text_only {A : Type} (m : M client A) : Prop :=
  forall cl, same_but_text cl (fst (m cl)).

(** The gestures of the user other than the Escape key. *)
Definition gesture_but_escape (e : event) : Prop :=
  match e with
  | DblClick _ | BlurTimeout _ | Input _ _ => True
  | KeyDown _ Enter | KeyDown _ OtherKey => True
  | _ => False
  end.

Definition all_idle (cl : client) : Prop :=
  Forall (fun e => contenteditable e = false) (document cl).

(** *** Two small pages *)

(** A connected viewer showing [amount] and [name]. *)
Definition demo_client : client :=
  step (initial_client
          [ {| data_field := "amount"; textContent := "100";
               contenteditable := false |};
            {| data_field := "name"; textContent := "Bob";
               contenteditable := false |} ])
       (SocketState OPEN).

(** The same viewer after an update has set [amount] to a value with a
    space on either side. *)
Definition padded_client : client :=
  step demo_client
       (SocketMessage (Ok (VObj (update_message (VStr "amount") (VStr " 100 "))))).

End Client.

(* ================================================================== *)
(** ** Reconnection of the viewer (server.js, lines 250-317) *)
(* ================================================================== *)

Module Reconnect.
Import JS.

Inductive log_line : Type :=
| LogAttempting (socketUrl : string)
| LogEstablished
| ErrSocketError
| LogClosedReconnecting.

(** The sockets the script has created, oldest first, each with its
    [readyState]; the variable [ws], [None] for [null] and otherwise the
    position of the socket it holds; the number of pending
    [setTimeout(connectWebSocket, 5000)] timers; the console. *)
Record page : Type := mkPage {
  sockets : list ready_state;
  ws : option nat;
  timers : nat;
  console : list log_line
}.

(** [window.location], as far as it is read. *)
Record location : Type := mkLocation {
  protocol : string;
  hostname : string
}.

Definition socketUrl (loc : location) : string :=
  (if String.eqb (protocol loc) "https:" then "wss" else "ws")
  ++ "://" ++ hostname loc ++ ":8080".

Definition is_closed (r : ready_state) : bool :=
  match r with
  | CLOSED => true
  | _ => false
  end.

Fixpoint set_nth (s : nat) (r : ready_state) (l : list ready_state)
  : list ready_state :=
  match l, s with
  | [], _ => []
  | _ :: rest, 0 => r :: rest
  | x :: rest, S s' => x :: set_nth s' r rest
  end.

Definition log (l : log_line) (pg : page) : page :=
  {| sockets := sockets pg; ws := ws pg; timers := timers pg;
     console := console pg ++ [l] |}.

Definition set_socket (s : nat) (r : ready_state) (pg : page) : page :=
  {| sockets := set_nth s r (sockets pg); ws := ws pg; timers := timers pg;
     console := console pg |}.

(** [ws.close()] of a browser socket: a socket that is not closed starts
    closing. *)
Definition close (s : nat) (pg : page) : page :=
  match nth_error (sockets pg) s with
  | Some CLOSED | None => pg
  | Some _ => set_socket s CLOSING pg
  end.

(** [new WebSocket(socketUrl)] throws a [SyntaxError] when the address
    does not parse.  [window.location.hostname] is a serialised host, or
    empty for a page that was not loaded from a host (a [file:] page);
    spliced between [ws://] and [:8080] it gives an address that parses
    exactly when it is not empty. *)
Definition constructor_accepts (loc : location) : bool :=
  negb (String.eqb (hostname loc) "").

(** [connectWebSocket] (lines 250-317): the socket held by [ws] is closed
    when it is not [CLOSED] yet; then the constructor is called, and when
    it returns [ws] is replaced by the new socket with the four handlers
    attached.  When the constructor throws, the assignment of line 264
    does not happen and the exception leaves the function. *)
Definition connectWebSocket (loc : location) (pg : page) : page * exc unit :=
  let pg1 := log (LogAttempting (socketUrl loc)) pg in
  let pg2 :=
    match ws pg1 with
    | Some s =>
        match nth_error (sockets pg1) s with
        | Some r => if negb (is_closed r) then close s pg1 else pg1
        | None => pg1
        end
    | None => pg1
    end in
  if constructor_accepts loc
  then ({| sockets := sockets pg2 ++ [CONNECTING];
           ws := Some (List.length (sockets pg2));
           timers := timers pg2;
           console := console pg2 |}, Ok tt)
  else (pg2, Throw SyntaxError).

(** What the browser does to the sockets and timers of the page.  A
    socket opens from [CONNECTING], may start closing while it is not
    [CLOSED], and fires 'close' once, when it becomes [CLOSED]; a timer
    fires only when one is pending.  Nothing catches an exception of
    [connectWebSocket]: the callback that called it ends there, with the
    state reached. *)
Inductive event : Type :=
| Opened (s : nat)
| Closing (s : nat)
| Errored (s : nat)
| Closed (s : nat)
| ReconnectTimer.

Definition step (loc : location) (pg : page) (e : event) : page :=
  match e with
  | Opened s =>
      match nth_error (sockets pg) s with
      | Some CONNECTING => log LogEstablished (set_socket s OPEN pg)
      | _ => pg
      end
  | Closing s => close s pg
  | Errored s =>
      match nth_error (sockets pg) s with
      | Some _ => log ErrSocketError pg
      | None => pg
      end
  | Closed s =>
      match nth_error (sockets pg) s with
      | Some CLOSED | None => pg
      | Some _ =>
          let pg1 := log LogClosedReconnecting (set_socket s CLOSED pg) in
          {| sockets := sockets pg1; ws := ws pg1; timers := S (timers pg1);
             console := console pg1 |}
      end
  | ReconnectTimer =>
      match timers pg with
      | 0 => pg
      | S n =>
          fst (connectWebSocket loc
                 {| sockets := sockets pg; ws := ws pg; timers := n;
                    console := console pg |})
      end
  end.

Definition run (loc : location) (pg : page) (events : list event) : page :=
  fold_left (step loc) events pg.

(** The page once the [DOMContentLoaded] callback has made its call of
    [connectWebSocket]. *)
Definition start (loc : location) : page :=
  fst (connectWebSocket loc
         {| sockets := []; ws := None; timers := 0; console := [] |}).

(** The sockets that are not [CLOSED]. *)
Definition live (pg : page) : nat :=
  List.length (filter (fun r => negb (is_closed r)) (sockets pg)).

(** The shape of every page of a run: all sockets but the newest are
    [CLOSED], [ws] holds the newest, and a timer is pending exactly when
    the newest is [CLOSED] too. *)
Definition settled (pg : page) : Prop :=
  exists older last,
    sockets pg = (older ++ [last])%list
    /\ Forall (fun x => x = CLOSED) older
    /\ ws pg = Some (List.length older)
    /\ timers pg = if is_closed last then 1 else 0.

(** A page on which no socket was ever created. *)
Definition never_connected (pg : page) : Prop :=
  sockets pg = [] /\ ws pg = None /\ timers pg = 0.

End Reconnect.

(* ================================================================== *)
(** ** The confirmation popup (server.js, lines 177-247 and 355-393) *)
(* ================================================================== *)

Module Popup.
Import JS.

(** Which of the elements the script looks up once are on the page.  The
    popup itself is there: line 184 reads a property of it before any
    listener is attached. *)
Record elements : Type := mkElements {
  overlay : bool;
  popupActionSpan : bool;
  popupAmountSpan : bool;
  popupMessageElement : bool
}.

(** The variables and the parts of the page the popup functions write. *)
Record popup : Type := mkPopup {
  currentPopupAction : option string;
  popupRedirectUrl : option string;
  action_text : string;
  amount_text : string;
  message_html : string;
  overlay_active : bool;
  popup_active : bool;
  aria_hidden : option string;
  body_popup_open : bool;
  navigated_to : option string
}.

Definition message_markup (amount : string) : string :=
  "Verify it's your Account proceeding for Amount:<span class="
  ++ dquote ++ "popup-amount" ++ dquote ++ ">" ++ amount ++ "</span>.".

Definition redirect_for (action : string) : string :=
  if String.eqb action "Buy" then "/buy-confirmation-page"
  else if String.eqb action "Sell" then "/sell-confirmation-page"
  else "/error-page".

(** [openPopup(action)] (lines 202-236).  [amountText] and
    [currencyText] are the [textContent] of the amount and currency
    elements, [None] when the element is missing.  The result carries the
    state reached and whether the call threw. *)
Definition openPopup (els : elements) (amountText currencyText : option string)
    (action : string) (p : popup) : popup * exc unit :=
  let amount := match amountText with
                | Some t => Client.trim t
                | None => "N/A"
                end in
  let currency := match currencyText with
                  | Some t => Client.trim t
                  | None => "NGN"
                  end in
  let p1 :=
    {| currentPopupAction := Some action;
       popupRedirectUrl := popupRedirectUrl p;
       action_text := if popupActionSpan els then action else action_text p;
       amount_text := if popupAmountSpan els
                      then amount ++ " " ++ currency else amount_text p;
       message_html := message_html p;
       overlay_active := overlay_active p;
       popup_active := popup_active p;
       aria_hidden := aria_hidden p;
       body_popup_open := body_popup_open p;
       navigated_to := navigated_to p |} in
  let fallback :=
    negb (popupActionSpan els)
    || (negb (popupAmountSpan els) && popupMessageElement els) in
  if fallback && negb (popupMessageElement els) then (p1, Throw TypeError)
  else
    ({| currentPopupAction := currentPopupAction p1;
        popupRedirectUrl := Some (redirect_for action);
        action_text := action_text p1;
        amount_text := amount_text p1;
        message_html := if fallback then message_markup amount
                        else message_html p1;
        overlay_active := if overlay els then true else overlay_active p1;
        popup_active := true;
        aria_hidden := Some "false";
        body_popup_open := true;
        navigated_to := navigated_to p1 |}, Ok tt).

(** [closePopup()] (lines 238-247). *)
Definition closePopup (els : elements) (p : popup) : popup :=
  {| currentPopupAction := None;
     popupRedirectUrl := None;
     action_text := action_text p;
     amount_text := amount_text p;
     message_html := message_html p;
     overlay_active := if overlay els then false else overlay_active p;
     popup_active := false;
     aria_hidden := Some "true";
     body_popup_open := false;
     navigated_to := navigated_to p |}.

(** The [keydown] listener of the document (lines 389-393), for a key
    name. *)
Definition on_document_keydown (els : elements) (key : string) (p : popup)
  : popup :=
  if String.eqb key "Escape" && popup_active p then closePopup els p else p.

(** The [click] listener of the accept button (lines 368-374). *)
Definition on_accept (p : popup) : popup :=
  {| currentPopupAction := currentPopupAction p;
     popupRedirectUrl := popupRedirectUrl p;
     action_text := action_text p;
     amount_text := amount_text p;
     message_html := message_html p;
     overlay_active := overlay_active p;
     popup_active := popup_active p;
     aria_hidden := aria_hidden p;
     body_popup_open := body_popup_open p;
     navigated_to := Some "https://hexyo-production.vercel.app/" |}.

End Popup.

(* ================================================================== *)
(** ** Properties of the authority *)
(* ================================================================== *)

Module ServerFacts.
Import JS Server.
#[local] Open Scope list_scope.
#[local] Arguments JSON_stringify : simpl never.

(** *** Objects *)

Section Objects.
Variable props : list (string * value).

Lemma has_own_In (k : string) :
  has_own props k = true <-> In k (keys props).
Proof.
  unfold has_own, keys.
  induction props as [|[k' v'] rest IH]; simpl.
  - split; [discriminate | tauto].
  - destruct (String.eqb_spec k' k) as [->|Hne].
    + split; auto.
    + rewrite IH. split; [tauto|]. intros [H|H]; [contradiction | exact H].
Qed.

Lemma keys_assign (k : string) (v : value) :
  has_own props k = true -> keys (assign props k v) = keys props.
Proof.
  unfold has_own, keys.
  induction props as [|[k' v'] rest IH]; simpl; [discriminate|].
  destruct (String.eqb k' k); simpl; [reflexivity|].
  intros H. rewrite IH by exact H. reflexivity.
Qed.

Lemma own_assign (k f : string) (v : value) :
  has_own props k = true ->
  own (assign props k v) f = if String.eqb k f then Some v else own props f.
Proof.
  unfold has_own.
  induction props as [|[k' v'] rest IH]; simpl; [discriminate|].
  destruct (String.eqb_spec k' k) as [->|Hne]; simpl.
  - destruct (String.eqb k f); reflexivity.
  - intros H. rewrite IH by exact H.
    destruct (String.eqb_spec k' f) as [->|Hne'];
      destruct (String.eqb_spec k f) as [->|Hne'']; congruence.
Qed.
End Objects.

Lemma has_own_keys (p q : list (string * value)) (k : string) :
  keys p = keys q -> has_own p k = has_own q k.
Proof.
  intros H.
  destruct (has_own p k) eqn:Hp, (has_own q k) eqn:Hq; try reflexivity.
  - apply has_own_In in Hp. rewrite H in Hp. apply has_own_In in Hp. congruence.
  - apply has_own_In in Hq. rewrite <- H in Hq. apply has_own_In in Hq. congruence.
Qed.

(** *** The registry *)

Lemma mem_In (c : conn) (cs : list conn) : mem c cs = true <-> In c cs.
Proof.
  unfold mem. rewrite existsb_exists. split.
  - intros [x [Hx Heq]]. apply Nat.eqb_eq in Heq. subst. exact Hx.
  - intros H. exists c. split; [exact H | apply Nat.eqb_refl].
Qed.

Lemma clients_add_In (ws : conn) (st : server) : In ws (clients (clients_add ws st)).
Proof.
  unfold clients_add. destruct (mem ws (clients st)) eqn:E.
  - apply mem_In. exact E.
  - simpl. apply in_or_app. right. left. reflexivity.
Qed.

Lemma clients_add_NoDup (ws : conn) (st : server) :
  NoDup (clients st) -> NoDup (clients (clients_add ws st)).
Proof.
  intros H. unfold clients_add. destruct (mem ws (clients st)) eqn:E; [exact H|].
  simpl. apply NoDup_app; [exact H | repeat constructor; simpl; tauto |].
  intros a Ha [Heq|[]]. subst a. apply mem_In in Ha. congruence.
Qed.

(** *** The loop of [broadcast] *)

Section BroadcastLoop.
Variable messageString : string.
Variable sender : option conn.

Lemma visit_cases (client : conn) (st : server) :
  (receives st sender client = true
   /\ broadcast_visit messageString sender client st = send client messageString st)
  \/ (is_sender sender client = true
      /\ broadcast_visit messageString sender client st = st)
  \/ (reclaimed st sender client = true
      /\ broadcast_visit messageString sender client st
         = clients_delete client (log WarnStaleClient st)).
Proof.
  unfold broadcast_visit, receives, reclaimed.
  destruct (is_sender sender client); simpl.
  - right. left. split; reflexivity.
  - destruct (is_open (readyState st client)); simpl.
    + left. split; reflexivity.
    + right. right. split; reflexivity.
Qed.

Lemma receives_reclaimed_exclusive (st : server) (c : conn) :
  receives st sender c = true -> reclaimed st sender c = false.
Proof.
  unfold receives, reclaimed.
  destruct (is_sender sender c), (is_open (readyState st c)); simpl; congruence.
Qed.

(** What the loop over the members [l] does to a state [st]. *)
Lemma loop_spec (l : list conn) : forall st : server,
  let st' := fold_left (fun s client => broadcast_visit messageString sender client s)
                       l st in
  currentData st' = currentData st
  /\ listening st' = listening st
  /\ readyState st' = readyState st
  /\ wire st' = wire st ++ map (fun c => (c, messageString))
                               (filter (receives st sender) l)
  /\ clients st' = filter (fun c => negb (mem c l && reclaimed st sender c))
                          (clients st)
  /\ console st' = console st ++ map (fun _ => WarnStaleClient)
                                     (filter (reclaimed st sender) l).
Proof.
  induction l as [|c rest IH]; intros st; simpl.
  - repeat split; try (rewrite app_nil_r; reflexivity).
    induction (clients st) as [|x xs IHx]; simpl; [reflexivity|].
    rewrite <- IHx. reflexivity.
  - set (st1 := broadcast_visit messageString sender c st).
    specialize (IH st1). simpl in IH.
    destruct IH as (Hd & Hl & Hr & Hw & Hc & Ho).
    assert (Hrecv : forall x, receives st1 sender x = receives st sender x).
    { intros x. unfold receives, st1.
      destruct (visit_cases c st) as [[_ ->]|[[_ ->]|[_ ->]]]; reflexivity. }
    assert (Hrecl : forall x, reclaimed st1 sender x = reclaimed st sender x).
    { intros x. unfold reclaimed, st1.
      destruct (visit_cases c st) as [[_ ->]|[[_ ->]|[_ ->]]]; reflexivity. }
    rewrite (filter_ext _ _ Hrecv) in Hw.
    rewrite (filter_ext _ _ Hrecl) in Ho.
    rewrite (filter_ext (fun x => negb (mem x rest && reclaimed st1 sender x))
               (fun x => negb (mem x rest && reclaimed st sender x))) in Hc
      by (intros x; rewrite Hrecl; reflexivity).
    unfold st1 in *.
    rewrite Hd, Hl, Hr, Hw, Hc, Ho. clear Hd Hl Hr Hw Hc Ho Hrecv Hrecl.
    destruct (visit_cases c st) as [[Hc1 ->]|[[Hc2 ->]|[Hc3 ->]]].
    + rewrite Hc1, (receives_reclaimed_exclusive _ _ Hc1). simpl.
      repeat split; try reflexivity.
      * rewrite <- app_assoc. reflexivity.
      * apply filter_ext. intros x.
        destruct (Nat.eqb_spec x c) as [->|Hne]; simpl; [|reflexivity].
        rewrite (receives_reclaimed_exclusive _ _ Hc1).
        rewrite andb_false_r. reflexivity.
    + assert (Hrc : receives st sender c = false)
        by (unfold receives; rewrite Hc2; reflexivity).
      assert (Hcl : reclaimed st sender c = false)
        by (unfold reclaimed; rewrite Hc2; reflexivity).
      rewrite Hrc, Hcl. repeat split; try reflexivity.
      apply filter_ext. intros x.
      destruct (Nat.eqb_spec x c) as [->|Hne]; simpl; [|reflexivity].
      rewrite Hcl, andb_false_r. reflexivity.
    + assert (Hrc : receives st sender c = false).
      { unfold receives, reclaimed in *.
        destruct (is_sender sender c), (is_open (readyState st c));
          simpl in *; congruence. }
      rewrite Hrc, Hc3. simpl. repeat split; try reflexivity.
      * induction (clients st) as [|x xs IHx]; simpl; [reflexivity|].
        destruct (Nat.eqb_spec x c) as [->|Hne]; simpl.
        -- rewrite Hc3. simpl. exact IHx.
        -- destruct (negb (mem x rest && reclaimed st sender x));
             simpl; rewrite IHx; reflexivity.
      * rewrite <- app_assoc. reflexivity.
Qed.
End BroadcastLoop.

(** *** broadcast *)

Lemma filter_mem_self (p : conn -> bool) (l : list conn) :
  filter (fun c => negb (mem c l && p c)) l = filter (fun c => negb (p c)) l.
Proof.
  apply filter_ext_in. intros c Hc.
  apply mem_In in Hc. rewrite Hc. reflexivity.
Qed.

(** The whole effect of one [broadcast] call. *)
Lemma broadcast_spec (message : list (string * value)) (sender : option conn)
    (st : server) :
  let st' := broadcast message sender st in
  currentData st' = currentData st
  /\ listening st' = listening st
  /\ readyState st' = readyState st
  /\ wire st' = wire st ++ map (fun c => (c, JSON_stringify message))
                               (filter (receives st sender) (clients st))
  /\ clients st' = filter (fun c => negb (reclaimed st sender c)) (clients st)
  /\ console st' = console st ++ LogBroadcasting (JSON_stringify message)
                     :: map (fun _ => WarnStaleClient)
                            (filter (reclaimed st sender) (clients st)).
Proof.
  unfold broadcast.
  destruct (loop_spec (JSON_stringify message) sender
              (clients (log (LogBroadcasting (JSON_stringify message)) st))
              (log (LogBroadcasting (JSON_stringify message)) st))
    as (Hd & Hl & Hr & Hw & Hc & Ho).
  simpl in *. rewrite Hd, Hl, Hr, Hw, Hc, Ho.
  repeat split; try reflexivity.
  - apply (filter_mem_self (reclaimed st sender)).
  - rewrite <- app_assoc. reflexivity.
Qed.

Lemma sent_since_app (st st' : server) (frames : list (conn * string)) :
  wire st' = wire st ++ frames -> sent_since st st' = frames.
Proof.
  intros H. unfold sent_since. rewrite H.
  rewrite skipn_app, skipn_all, Nat.sub_diag. reflexivity.
Qed.

Lemma broadcast_sent (message : list (string * value)) (sender : option conn)
    (st : server) :
  sent_since st (broadcast message sender st)
  = map (fun c => (c, JSON_stringify message))
        (filter (receives st sender) (clients st)).
Proof.
  apply sent_since_app. apply broadcast_spec.
Qed.

Lemma broadcast_calls_app (st st' : server) (lines : list log_line) :
  console st' = console st ++ lines ->
  broadcast_calls st' = broadcast_calls st + List.length (filter is_broadcast_line lines).
Proof.
  intros H. unfold broadcast_calls. rewrite H, filter_app, length_app. reflexivity.
Qed.

Lemma no_broadcast_line_in_warnings (l : list conn) :
  filter is_broadcast_line (map (fun _ : conn => WarnStaleClient) l) = [].
Proof.
  induction l; simpl; auto.
Qed.

Lemma broadcast_counts_once (message : list (string * value))
    (sender : option conn) (st : server) :
  broadcast_calls (broadcast message sender st) = S (broadcast_calls st).
Proof.
  destruct (broadcast_spec message sender st) as (_ & _ & _ & _ & _ & Ho).
  rewrite (broadcast_calls_app _ _ _ Ho). simpl.
  rewrite no_broadcast_line_in_warnings. simpl. lia.
Qed.

(** *** The 'message' handler *)

Ltac unfold_handler :=
  unfold on_message, process_message, log_non_update, hasOwnProperty,
    ToPropertyKey, exec, try_catch, bind, lift, effect, read, ret, exc_bind.

Lemma on_message_throw (ws : conn) (e : js_error) (st : server) :
  on_message ws (Throw e) st = log (ErrProcessFailed e) (log LogReceived st).
Proof. reflexivity. Qed.

Ltac discard := eexists; split; reflexivity.

Lemma on_message_not_update (ws : conn) (m : value) (st : server) :
  is_update_with_payload m = false -> discarded st (on_message ws (Ok m) st).
Proof.
  unfold is_update_with_payload, discarded. unfold_handler. simpl.
  destruct (Get m "type") as [type|e] eqn:Ht; simpl; [|intros _; discard].
  destruct (strict_eq_string type "update") eqn:Hu; simpl.
  - destruct (Get m "payload") as [payload|e] eqn:Hp; simpl; [|intros _; discard].
    intros ->. simpl.
    destruct (ToString _); simpl; discard.
  - intros _. destruct (ToString _); simpl; discard.
Qed.

Lemma on_message_cases (ws : conn) (m : value) (st : server) :
  discarded st (on_message ws (Ok m) st)
  \/ exists key field v,
       update_field m = Some key
       /\ has_own (currentData st) key = true
       /\ stored ws key field v st (on_message ws (Ok m) st).
Proof.
  destruct (is_update_with_payload m) eqn:Hshape;
    [|left; apply on_message_not_update; exact Hshape].
  unfold update_field. rewrite Hshape.
  unfold is_update_with_payload in Hshape.
  unfold discarded, stored. unfold_handler. simpl.
  destruct (Get m "type") as [type|e] eqn:Ht; [|discriminate].
  apply andb_prop in Hshape. destruct Hshape as [Hu Hp].
  destruct (Get m "payload") as [payload|e] eqn:Hpl; [|discriminate].
  rewrite Hu, Hp. simpl.
  destruct (Get payload "field") as [field|e] eqn:Hf; simpl; [|left; discard].
  destruct (Get payload "value") as [v|e] eqn:Hv; simpl; [|left; discard].
  destruct (ToString field) as [key|e] eqn:Hk; simpl; [|left; discard].
  destruct (has_own (currentData st) key) eqn:Hown; simpl; [|left; discard].
  right. exists key, field, v.
  split; [reflexivity|]. split; [exact Hown|].
  destruct (ToString v) as [sv|e] eqn:Hsv; simpl.
  - left. eauto.
  - right. eauto.
Qed.

Lemma on_message_unknown_field (ws : conn) (m : value) (k : string) (st : server) :
  update_field m = Some k ->
  has_own (currentData st) k = false ->
  on_message ws (Ok m) st = log (WarnUnknownField k) (log LogReceived st).
Proof.
  unfold update_field, is_update_with_payload. unfold_handler. simpl.
  destruct (Get m "type") as [type|e] eqn:Ht; [|discriminate].
  destruct (strict_eq_string type "update"); [|discriminate]. simpl.
  destruct (Get m "payload") as [payload|e] eqn:Hpl; [|discriminate].
  destruct (truthy payload); [|discriminate]. simpl.
  destruct (Get payload "field") as [field|e] eqn:Hf; simpl; [|discriminate].
  destruct (ToString field) as [key|e] eqn:Hk; simpl; [|discriminate].
  intros Hkey Hown. injection Hkey as Hkey. subst k.
  destruct (Get payload "value") as [v|e] eqn:Hv; simpl.
  - rewrite Hown. simpl. reflexivity.
  - destruct payload; simpl in Hv, Hf; try discriminate.
    destruct (own props "value"); discriminate.
Qed.

Lemma valid_update_field (m : value) (f v : string) :
  valid_update m = Some (f, v) -> update_field m = Some f.
Proof.
  unfold valid_update, update_field, is_update_with_payload.
  destruct m as [| | | | |?|props]; try discriminate. simpl.
  destruct (own props "type") as [[| | | |t| |]|]; try discriminate.
  destruct (own props "payload") as [[| | | | | |payload]|]; try discriminate.
  simpl. destruct (String.eqb t "update"); [|discriminate]. simpl.
  destruct (own payload "field") as [[| | | |f'| |]|]; try discriminate.
  destruct (own payload "value") as [[| | | |v'| |]|]; try discriminate.
  intros [= -> ->]. reflexivity.
Qed.

(** A valid update of a known field is stored and broadcast. *)
Lemma on_message_valid_update (ws : conn) (m : value) (f v : string) (st : server) :
  valid_update m = Some (f, v) ->
  has_own (currentData st) f = true ->
  on_message ws (Ok m) st
  = broadcast (update_message (VStr f) (VStr v)) (Some ws)
      (log (LogUpdated f v) (set_field f (VStr v) (log LogReceived st))).
Proof.
  unfold valid_update.
  destruct m as [| | | | |?|props]; try discriminate.
  destruct (own props "type") as [[| | | |t| |]|] eqn:Ht; try discriminate.
  destruct (own props "payload") as [[| | | | | |payload]|] eqn:Hp; try discriminate.
  destruct (String.eqb t "update") eqn:Hu; [|discriminate].
  destruct (own payload "field") as [[| | | |f'| |]|] eqn:Hf; try discriminate.
  destruct (own payload "value") as [[| | | |v'| |]|] eqn:Hv; try discriminate.
  intros [= -> ->] Hown.
  unfold_handler. simpl. rewrite Ht. simpl. rewrite Hu, Hp. simpl.
  rewrite Hf, Hv. simpl. rewrite Hown. reflexivity.
Qed.

Lemma keys_on_message (ws : conn) (parsed : exc value) (st : server) :
  keys (currentData (on_message ws parsed st)) = keys (currentData st).
Proof.
  destruct parsed as [m|e]; [|reflexivity].
  destruct (on_message_cases ws m st)
    as [[line [-> _]]|(key & field & v & _ & Hown & [(sf & sv & ->)|(e & ->)])].
  - reflexivity.
  - destruct (broadcast_spec (update_message field v) (Some ws)
                (log (LogUpdated sf sv) (set_field key v (log LogReceived st))))
      as (-> & _).
    simpl. apply keys_assign. exact Hown.
  - simpl. apply keys_assign. exact Hown.
Qed.

Lemma discarded_frame (st st' : server) :
  discarded st st' ->
  currentData st' = currentData st
  /\ clients st' = clients st
  /\ listening st' = listening st
  /\ readyState st' = readyState st
  /\ wire st' = wire st
  /\ broadcast_calls st' = broadcast_calls st.
Proof.
  intros [line [-> Hline]]. repeat split.
  unfold broadcast_calls. simpl. rewrite !filter_app, !length_app. simpl.
  rewrite Hline. simpl. lia.
Qed.

Lemma on_message_throw_discarded (ws : conn) (e : js_error) (st : server) :
  discarded st (on_message ws (Throw e) st).
Proof. rewrite on_message_throw. discard. Qed.

(** *** Invariants of the event loop *)

Lemma stored_frame (ws : conn) (key : string) (field v : value)
    (st st' : server) :
  stored ws key field v st st' ->
  currentData st' = assign (currentData st) key v
  /\ listening st' = listening st
  /\ readyState st' = readyState st
  /\ exists p, clients st' = filter p (clients st).
Proof.
  intros [(sf & sv & ->)|(e & ->)].
  - destruct (broadcast_spec (update_message field v) (Some ws)
                (log (LogUpdated sf sv) (set_field key v (log LogReceived st))))
      as (Hd & Hl & Hr & _ & Hc & _).
    rewrite Hd, Hl, Hr, Hc. simpl. repeat split. eauto.
  - simpl. repeat split. exists (fun _ => true).
    symmetry. apply forallb_filter_id, forallb_forall. reflexivity.
Qed.

Lemma on_message_frame (ws : conn) (parsed : exc value) (st : server) :
  listening (on_message ws parsed st) = listening st
  /\ readyState (on_message ws parsed st) = readyState st
  /\ exists p, clients (on_message ws parsed st) = filter p (clients st).
Proof.
  assert (Hid : exists p : conn -> bool, clients st = filter p (clients st)).
  { exists (fun _ => true). symmetry.
    apply forallb_filter_id, forallb_forall. reflexivity. }
  destruct parsed as [m|e]; [|repeat split; exact Hid].
  destruct (on_message_cases ws m st)
    as [Hdis|(key & field & v & _ & _ & Hst)].
  - destruct (discarded_frame _ _ Hdis) as (_ & -> & -> & -> & _).
    repeat split; exact Hid.
  - destruct (stored_frame _ _ _ _ _ _ Hst) as (_ & -> & -> & Hc).
    repeat split; exact Hc.
Qed.

Lemma step_keys (st : server) (e : event) :
  keys (currentData (step st e)) = keys (currentData st).
Proof.
  destruct e as [ws o|ws parsed|ws|ws|ws|ws r]; simpl.
  - unfold on_connection, send_initial_state, clients_add.
    destruct o as [[]|e]; simpl; destruct (mem ws (clients st)); reflexivity.
  - destruct (mem ws (listening st)); [apply keys_on_message | reflexivity].
  - destruct (mem ws (listening st)); reflexivity.
  - destruct (mem ws (listening st)); reflexivity.
  - reflexivity.
  - reflexivity.
Qed.

Lemma run_keys (events : list event) : forall st : server,
  keys (currentData (run st events)) = keys (currentData st).
Proof.
  unfold run. induction events as [|e rest IH]; intros st; simpl; [reflexivity|].
  rewrite IH. apply step_keys.
Qed.

Lemma on_connection_clients (ws : conn) (o : exc unit) (st : server) :
  clients (on_connection ws o st) = clients (clients_add ws st).
Proof.
  unfold on_connection, send_initial_state, clients_add.
  destruct o as [[]|e]; simpl; destruct (mem ws (clients st)); reflexivity.
Qed.

Lemma step_NoDup (st : server) (e : event) :
  NoDup (clients st) -> NoDup (clients (step st e)).
Proof.
  intros H.
  destruct e as [ws o|ws parsed|ws|ws|ws|ws r]; simpl.
  - rewrite on_connection_clients. apply clients_add_NoDup. exact H.
  - destruct (mem ws (listening st)); [|exact H].
    destruct (on_message_frame ws parsed st) as (_ & _ & p & ->).
    apply NoDup_filter. exact H.
  - destruct (mem ws (listening st)); [|exact H].
    simpl. apply NoDup_filter. exact H.
  - destruct (mem ws (listening st)); [|exact H].
    simpl. apply NoDup_filter. exact H.
  - exact H.
  - exact H.
Qed.

Lemma run_NoDup (events : list event) : forall st : server,
  NoDup (clients st) -> NoDup (clients (run st events)).
Proof.
  unfold run. induction events as [|e rest IH]; intros st H; simpl; [exact H|].
  apply IH, step_NoDup, H.
Qed.

(** The registry of a running authority holds every connection once. *)
Lemma registry_NoDup (rs : conn -> ready_state) (events : list event) :
  NoDup (clients (run (initial_server rs) events)).
Proof. apply run_NoDup. constructor. Qed.

(** Listeners are attached by the 'connection' handler only. *)
Lemma step_listening (st : server) (e : event) (ws : conn) :
  In ws (listening (step st e)) ->
  In ws (listening st) \/ exists o, e = Connection ws o.
Proof.
  destruct e as [c o|c parsed|c|c|c|c r]; simpl;
    [ | destruct (mem c (listening st)) eqn:Hm; [|auto]
      | destruct (mem c (listening st)); auto
      | destruct (mem c (listening st)); auto
      | auto | auto ].
  - unfold on_connection, send_initial_state, clients_add.
    assert (Hl : forall s, In ws (listening (attach_listeners c s)) ->
                           In ws (listening s) \/ ws = c).
    { intros s. unfold attach_listeners. simpl.
      destruct (mem c (listening s)); [auto|].
      intros Hin. apply in_app_or in Hin. destruct Hin as [Hin|[Heq|[]]]; auto. }
    destruct o as [[]|e]; simpl; destruct (mem c (clients st)); simpl;
      intros Hin; apply Hl in Hin; simpl in Hin;
      (destruct Hin as [Hin | ->]; [left; exact Hin | right; eauto]).
  - destruct (on_message_frame c parsed st) as (-> & _). auto.
Qed.

Lemma run_listening (events : list event) : forall (st : server) (ws : conn),
  In ws (listening (run st events)) ->
  In ws (listening st) \/ exists o, In (Connection ws o) events.
Proof.
  unfold run. induction events as [|e rest IH]; intros st ws; simpl; [auto|].
  intros H. apply IH in H. destruct H as [H|[o Ho]].
  - apply step_listening in H. destruct H as [H|[o ->]]; eauto.
  - eauto.
Qed.

(** *** Fan-out *)

Lemma receives_Some (st : server) (c k : conn) :
  receives st (Some c) k = true <-> k <> c /\ is_open (readyState st k) = true.
Proof.
  unfold receives. simpl. destruct (Nat.eqb_spec k c) as [->|Hne]; simpl.
  - split; [discriminate | intros [H _]; contradiction].
  - split; [intros H; split; assumption | intros [_ H]; exact H].
Qed.

Lemma reclaimed_Some (st : server) (c k : conn) :
  reclaimed st (Some c) k = true <-> k <> c /\ is_open (readyState st k) = false.
Proof.
  unfold reclaimed. simpl. destruct (Nat.eqb_spec k c) as [->|Hne]; simpl.
  - split; [discriminate | intros [H _]; contradiction].
  - destruct (is_open (readyState st k)); simpl;
      split; try discriminate; try (intros [_ H]; discriminate); auto.
Qed.

Lemma sent_to_registered (message : list (string * value)) (sender : option conn)
    (st : server) (k : conn) (d : string) :
  In (k, d) (sent_since st (broadcast message sender st)) ->
  d = JSON_stringify message /\ In k (clients st) /\ receives st sender k = true.
Proof.
  rewrite broadcast_sent. intros H. apply in_map_iff in H.
  destruct H as (x & Hx & Hin). injection Hx as -> <-.
  apply filter_In in Hin. tauto.
Qed.

(** C4.  [broadcast(msg, c)] serialises [msg] once (one 'Broadcasting'
    line carries the string) and hands that one string to [send] for
    exactly the registered connections, in registry order, that differ
    from [c] and are open, so for no closed connection and not for [c];
    every registered connection other than [c] that it finds not open
    leaves the registry, and no later broadcast from a state with that
    registry sends to it. *)
Theorem broadcast_fan_out (message : list (string * value)) (c : conn)
    (st : server) :
  let s := JSON_stringify message in
  let st' := broadcast message (Some c) st in
  sent_since st st'
    = map (fun k => (k, s)) (filter (receives st (Some c)) (clients st))
  /\ (forall k, In k (clients st) -> k <> c ->
                is_open (readyState st k) = true -> In (k, s) (sent_since st st'))
  /\ (forall k d, In (k, d) (sent_since st st') ->
                  d = s /\ In k (clients st) /\ k <> c
                  /\ is_open (readyState st k) = true)
  /\ (NoDup (clients st) -> NoDup (map fst (sent_since st st')))
  /\ broadcast_calls st' = S (broadcast_calls st)
  /\ clients st' = filter (fun k => negb (reclaimed st (Some c) k)) (clients st)
  /\ (forall k, In k (clients st) -> k <> c ->
                is_open (readyState st k) = false ->
                ~ In k (clients st')
                /\ forall message2 sender2 st2 d,
                     clients st2 = clients st' ->
                     ~ In (k, d) (sent_since st2 (broadcast message2 sender2 st2))).
Proof.
  intros s st'. subst s st'.
  destruct (broadcast_spec message (Some c) st) as (_ & _ & _ & _ & Hc & _).
  split; [apply broadcast_sent|].
  split.
  { intros k Hin Hne Hopen. rewrite broadcast_sent.
    apply in_map_iff. exists k. split; [reflexivity|].
    apply filter_In. split; [exact Hin|]. apply receives_Some. auto. }
  split.
  { intros k d H. apply sent_to_registered in H. destruct H as (-> & Hin & Hr).
    apply receives_Some in Hr. tauto. }
  split.
  { intros Hnd. rewrite broadcast_sent, map_map. simpl. rewrite map_id.
    apply NoDup_filter. exact Hnd. }
  split; [apply broadcast_counts_once|].
  split; [exact Hc|].
  intros k Hin Hne Hclosed.
  assert (Hout : ~ In k (clients (broadcast message (Some c) st))).
  { rewrite Hc. intros H. apply filter_In in H. destruct H as [_ H].
    assert (Hr : reclaimed st (Some c) k = true)
      by (apply reclaimed_Some; auto).
    rewrite Hr in H. discriminate. }
  split; [exact Hout|].
  intros message2 sender2 st2 d Hsame H.
  apply sent_to_registered in H. destruct H as (_ & Hin2 & _).
  rewrite Hsame in Hin2. contradiction.
Qed.

Lemma count_occ_filter_keep (p : conn -> bool) (l : list conn) (c : conn) :
  p c = true ->
  count_occ Nat.eq_dec (filter p l) c = count_occ Nat.eq_dec l c.
Proof.
  intros Hp. induction l as [|x xs IH]; simpl; [reflexivity|].
  destruct (p x) eqn:Hx; simpl; destruct (Nat.eq_dec x c) as [->|Hne];
    congruence.
Qed.

(** C10.  [broadcast] tests the exclusion before the [readyState]: the
    excluded sender is skipped and never reclaimed, whatever its
    [readyState], so also when it is no longer open.  It is a member of
    the registry after the call exactly when it was one before (and as
    often), and nothing is sent to it. *)
Theorem excluded_sender_not_reclaimed (message : list (string * value))
    (c : conn) (st : server) :
  let st' := broadcast message (Some c) st in
  reclaimed st (Some c) c = false
  /\ (In c (clients st') <-> In c (clients st))
  /\ count_occ Nat.eq_dec (clients st') c = count_occ Nat.eq_dec (clients st) c
  /\ forall d, ~ In (c, d) (sent_since st st').
Proof.
  intros st'. subst st'.
  destruct (broadcast_spec message (Some c) st) as (_ & _ & _ & _ & Hc & _).
  assert (Hkeep : reclaimed st (Some c) c = false)
    by (unfold reclaimed; simpl; rewrite Nat.eqb_refl; reflexivity).
  rewrite Hc. split; [exact Hkeep|]. repeat split.
  - intros H. apply filter_In in H. tauto.
  - intros H. apply filter_In. rewrite Hkeep. auto.
  - apply count_occ_filter_keep. rewrite Hkeep. reflexivity.
  - intros d H. apply sent_to_registered in H. destruct H as (_ & _ & Hr).
    apply receives_Some in Hr. destruct Hr as [Hr _]. contradiction.
Qed.

(** *** Protocol errors *)

(** C5.  A frame that is not JSON ([JSON.parse] throws), or a parsed
    message that fails the test [type === 'update' && payload], is
    discarded: the store, the registry, the listeners and every socket's
    [readyState] are as before, nothing is handed to [send] (so no error
    reaches the peer) and [broadcast] is not called; the handler only
    writes to the console. *)
Theorem protocol_error_discarded (ws : conn) (parsed : exc value) (st : server) :
  match parsed with
  | Throw _ => True
  | Ok m => is_update_with_payload m = false
  end ->
  let st' := on_message ws parsed st in
  currentData st' = currentData st
  /\ clients st' = clients st
  /\ listening st' = listening st
  /\ readyState st' = readyState st
  /\ wire st' = wire st
  /\ sent_since st st' = []
  /\ broadcast_calls st' = broadcast_calls st.
Proof.
  intros H st'. subst st'.
  assert (Hdis : discarded st (on_message ws parsed st)).
  { destruct parsed as [m|e].
    - apply on_message_not_update. exact H.
    - apply on_message_throw_discarded. }
  destruct (discarded_frame _ _ Hdis) as (Hd & Hc & Hl & Hr & Hw & Hb).
  repeat split; try assumption.
  apply sent_since_app. rewrite Hw, app_nil_r. reflexivity.
Qed.

(** *** The field set *)

(** C2.  In every state the authority reaches from its initial state, an
    update whose field is not one of the keys [amount], [name] of the
    initial snapshot is rejected: the store, the registry and the frames
    sent are unchanged and [broadcast] is not called.  And whatever
    events arrive, the keys of the store stay [amount], [name], in that
    order. *)
Theorem unknown_field_rejected (rs : conn -> ready_state) (events : list event) :
  let st := run (initial_server rs) events in
  keys (currentData st) = ["amount"; "name"]
  /\ forall ws m k,
       update_field m = Some k ->
       ~ In k (keys initial_currentData) ->
       let st' := on_message ws (Ok m) st in
       currentData st' = currentData st
       /\ clients st' = clients st
       /\ sent_since st st' = []
       /\ broadcast_calls st' = broadcast_calls st.
Proof.
  intros st.
  assert (Hkeys : keys (currentData st) = keys initial_currentData)
    by (subst st; apply run_keys).
  split; [exact Hkeys|].
  intros ws m k Hk Hnot st'. subst st'.
  assert (Hown : has_own (currentData st) k = false).
  { destruct (has_own (currentData st) k) eqn:E; [|reflexivity].
    apply has_own_In in E. rewrite Hkeys in E. contradiction. }
  rewrite (on_message_unknown_field ws m k st Hk Hown).
  assert (Hdis : discarded st (log (WarnUnknownField k) (log LogReceived st)))
    by discard.
  destruct (discarded_frame _ _ Hdis) as (Hd & Hc & _ & _ & Hw & Hb).
  repeat split; try assumption.
  apply sent_since_app. rewrite Hw, app_nil_r. reflexivity.
Qed.

(** *** Hydration *)

Lemma string_app_assoc (a b c : string) :
  ((a ++ b) ++ c = a ++ (b ++ c))%string.
Proof.
  induction a as [|x a IH]; simpl; [reflexivity|]. rewrite IH. reflexivity.
Qed.

Lemma string_app_nil_r (a : string) : (a ++ "" = a)%string.
Proof.
  induction a as [|x a IH]; simpl; [reflexivity|]. rewrite IH. reflexivity.
Qed.

Lemma concat_empty_cons (x : string) (xs : list string) :
  String.concat "" (x :: xs) = (x ++ String.concat "" xs)%string.
Proof.
  destruct xs as [|y ys]; [symmetry; apply string_app_nil_r|reflexivity].
Qed.

Lemma concat_sep_cons (sep x : string) (xs : list string) :
  String.concat sep (x :: xs)
  = (x ++ String.concat "" (map (fun m => sep ++ m) xs))%string.
Proof.
  revert x. induction xs as [|y ys IH]; intros x.
  - symmetry. apply string_app_nil_r.
  - change (String.concat sep (x :: y :: ys))
      with (x ++ sep ++ String.concat sep (y :: ys))%string.
    rewrite IH. change (map (fun m => sep ++ m) (y :: ys))%string
      with ((sep ++ y)%string :: map (fun m => sep ++ m)%string ys).
    rewrite concat_empty_cons, !string_app_assoc. reflexivity.
Qed.

(** The members of an object as [serialize] writes them, after the first
    one and from the first one on. *)
Lemma serialize_members (l : list (string * value)) :
  (fix members (l : list (string * value)) (first : bool) : string :=
     match l with
     | [] => ""
     | (k, x) :: rest =>
         match serialize x with
         | None => members rest first
         | Some s =>
             (if first then "" else ",") ++
             QuoteJSONString k ++ ":" ++ s ++ members rest false
         end
     end)%string l false
  = String.concat "" (map (fun m => ("," ++ m)%string) (flat_map member_text l))
  /\ (fix members (l : list (string * value)) (first : bool) : string :=
        match l with
        | [] => ""
        | (k, x) :: rest =>
            match serialize x with
            | None => members rest first
            | Some s =>
                (if first then "" else ",") ++
                QuoteJSONString k ++ ":" ++ s ++ members rest false
            end
        end)%string l true
     = String.concat "," (flat_map member_text l).
Proof.
  induction l as [|[k x] rest [IHf IHt]]; [split; reflexivity|].
  change (flat_map member_text ((k, x) :: rest))
    with (member_text (k, x) ++ flat_map member_text rest).
  unfold member_text at 1 3. cbn [snd fst].
  destruct (serialize x) as [sx|] eqn:Hx; [|split; assumption].
  rewrite IHf. clear IHf IHt.
  generalize (flat_map member_text rest) as ms.
  generalize (QuoteJSONString k) as q. intros q ms.
  change ([(q ++ ":" ++ sx)%string] ++ ms) with ((q ++ ":" ++ sx)%string :: ms).
  split.
  - change (map (fun m => "," ++ m)%string ((q ++ ":" ++ sx)%string :: ms))
      with (("," ++ q ++ ":" ++ sx)%string :: map (fun m => "," ++ m)%string ms).
    rewrite concat_empty_cons, !string_app_assoc. reflexivity.
  - rewrite concat_sep_cons, !string_app_assoc. reflexivity.
Qed.

Lemma serialize_VObj (props : list (string * value)) :
  serialize (VObj props)
  = Some ("{" ++ String.concat "," (flat_map member_text props) ++ "}")%string.
Proof.
  rewrite <- (proj2 (serialize_members props)). reflexivity.
Qed.

Lemma serialize_None (v : value) : serialize v = None <-> v = VUndefined.
Proof.
  split; [|intros ->; reflexivity].
  destruct v as [| |b|r|s|l|l]; try reflexivity; try discriminate.
  - destruct b; discriminate.
  - simpl.
    destruct (String.eqb r "Infinity" || String.eqb r "-Infinity"
              || String.eqb r "NaN"); discriminate.
Qed.

(** The text of the frame the connection handler builds. *)
Lemma hydration_frame (data : list (string * value)) :
  JSON_stringify (initial_state_message data) = hydration_text data.
Proof.
  unfold JSON_stringify, initial_state_message. rewrite serialize_VObj.
  change (flat_map member_text
            [("type", VStr "initial_state"); ("payload", VObj data)])
    with (member_text ("type", VStr "initial_state")
          ++ member_text ("payload", VObj data)).
  unfold member_text. cbn [snd fst]. rewrite serialize_VObj.
  change (serialize (VStr "initial_state"))
    with (Some (QuoteJSONString "initial_state")).
  change (QuoteJSONString "type") with (quoted "type").
  change (QuoteJSONString "initial_state") with (quoted "initial_state").
  change (QuoteJSONString "payload") with (quoted "payload").
  unfold hydration_text.
  generalize (String.concat "," (flat_map member_text data)) as m. intros m.
  generalize (quoted "type") as qt, (quoted "initial_state") as qi,
    (quoted "payload") as qp. intros qt qi qp.
  change ([(qt ++ ":" ++ qi)%string] ++ [(qp ++ ":" ++ "{" ++ m ++ "}")%string])
    with [(qt ++ ":" ++ qi)%string; (qp ++ ":" ++ "{" ++ m ++ "}")%string].
  rewrite concat_sep_cons. cbn [map]. rewrite concat_empty_cons.
  cbn [String.concat]. rewrite !string_app_assoc, ?string_app_nil_r.
  simpl. reflexivity.
Qed.

Lemma keys_two (data : list (string * value)) :
  keys data = ["amount"; "name"] ->
  exists va vn, data = [("amount", va); ("name", vn)].
Proof.
  destruct data as [|[k1 v1] [|[k2 v2] [|kv rest]]]; try discriminate.
  simpl. intros E. injection E as -> ->. exists v1, v2. reflexivity.
Qed.

Lemma snapshot_frame (va vn : value) (sa sn : string) :
  serialize va = Some sa -> serialize vn = Some sn ->
  hydration_text [("amount", va); ("name", vn)] = snapshot_text sa sn.
Proof.
  intros Ha Hn. unfold hydration_text, snapshot_text.
  change (flat_map member_text [("amount", va); ("name", vn)])
    with (member_text ("amount", va) ++ member_text ("name", vn) ++ []).
  rewrite app_nil_r. unfold member_text. cbn [snd fst]. rewrite Ha, Hn.
  change (QuoteJSONString "amount") with (quoted "amount").
  change (QuoteJSONString "name") with (quoted "name").
  generalize (quoted "type") as qt, (quoted "initial_state") as qi,
    (quoted "payload") as qp, (quoted "amount") as qa, (quoted "name") as qn.
  intros qt qi qp qa qn.
  change ([(qa ++ ":" ++ sa)%string] ++ [(qn ++ ":" ++ sn)%string])
    with [(qa ++ ":" ++ sa)%string; (qn ++ ":" ++ sn)%string].
  rewrite concat_sep_cons. cbn [map]. rewrite concat_empty_cons.
  cbn [String.concat]. rewrite !string_app_assoc, ?string_app_nil_r.
  reflexivity.
Qed.

(** The handler that keeps the record of its effects is the handler. *)
Lemma on_connection_traced_state (ws : conn) (outcome : exc unit) (st : server) :
  fst (on_connection_traced ws outcome st) = on_connection ws outcome st.
Proof.
  unfold on_connection_traced, send_initial_state_traced, call_send, act,
    on_connection, send_initial_state,
    exec, bind, effect, try_catch, read, lift, ret.
  destruct outcome as [[]|e]; reflexivity.
Qed.

Lemma on_connection_traced_ops (ws : conn) (outcome : exc unit) (st : server) :
  snd (on_connection_traced ws outcome st)
  = [OpLog LogClientConnected;
     OpRegister ws;
     OpSend ws (JSON_stringify (initial_state_message (currentData st))) outcome;
     OpLog (match outcome with
            | Ok _ => LogSentInitialState
            | Throw e => ErrInitialStateFailed e
            end);
     OpAttach ws].
Proof.
  unfold on_connection_traced, send_initial_state_traced, call_send, act,
    clients_add, exec, bind, effect, try_catch, read, lift, ret.
  destruct outcome as [[]|e]; simpl; destruct (mem ws (clients st)); reflexivity.
Qed.

(** C3.  The 'connection' handler performs, in this order: the console
    line, the registration of the connection, one call of [send] on it,
    the console line of the outcome, and last the attachment of the
    listeners.  The frame of that call is, character by character, the
    object with the type ['initial_state'] and a payload that lists, in
    the order of the store, every field whose stored value has a JSON
    text, with that text; a field has no member exactly when it holds
    [undefined].  In a run from the initial state the store holds
    [amount] and [name] in this order, and when neither holds
    [undefined] the payload carries both: two strings appear quoted.
    When the transport takes the frame it is the only frame the handler
    adds; when the [send] throws, the failure is logged, nothing is sent
    and the connection is registered all the same.  The store is not
    touched.  A 'message' event of a connection changes the state only
    after that connection's 'connection' event. *)
Theorem hydration_on_connect (ws : conn) (outcome : exc unit) (st : server) :
  let st' := on_connection ws outcome st in
  let frame := hydration_text (currentData st) in
  fst (on_connection_traced ws outcome st) = st'
  /\ snd (on_connection_traced ws outcome st)
     = [OpLog LogClientConnected;
        OpRegister ws;
        OpSend ws frame outcome;
        OpLog (match outcome with
               | Ok _ => LogSentInitialState
               | Throw e => ErrInitialStateFailed e
               end);
        OpAttach ws]
  /\ In ws (clients st')
  /\ currentData st' = currentData st
  /\ match outcome with
     | Ok _ =>
         sent_since st st' = [(ws, frame)]
         /\ console st' = console st ++ [LogClientConnected; LogSentInitialState]
     | Throw e =>
         sent_since st st' = []
         /\ console st' = console st ++ [LogClientConnected; ErrInitialStateFailed e]
     end
  /\ (forall k v, member_text (k, v) = [] <-> v = VUndefined)
  /\ (forall rs events,
        st = run (initial_server rs) events ->
        exists va vn,
          currentData st = [("amount", va); ("name", vn)]
          /\ frame
             = ("{" ++ quoted "type" ++ ":" ++ quoted "initial_state" ++ ","
                ++ quoted "payload" ++ ":{"
                ++ String.concat ","
                     (member_text ("amount", va) ++ member_text ("name", vn))
                ++ "}}")%string)
  /\ (forall va vn sa sn,
        currentData st = [("amount", va); ("name", vn)] ->
        serialize va = Some sa -> serialize vn = Some sn ->
        frame = snapshot_text sa sn)
  /\ (forall a n,
        currentData st = [("amount", VStr a); ("name", VStr n)] ->
        frame = snapshot_text (QuoteJSONString a) (QuoteJSONString n))
  /\ (forall parsed,
        ~ In ws (listening st) -> step st (Message ws parsed) = st)
  /\ (forall rs events parsed,
        step (run (initial_server rs) events) (Message ws parsed)
          <> run (initial_server rs) events ->
        exists o, In (Connection ws o) events).
Proof.
  intros st' frame. subst st' frame.
  split; [apply on_connection_traced_state|].
  split; [rewrite on_connection_traced_ops, hydration_frame; reflexivity|].
  split; [rewrite on_connection_clients; apply clients_add_In|].
  split.
  { unfold on_connection, send_initial_state, clients_add.
    destruct outcome as [[]|e]; simpl; destruct (mem ws (clients st)); reflexivity. }
  split.
  { rewrite <- hydration_frame.
    unfold on_connection, send_initial_state, clients_add,
      exec, bind, effect, try_catch, read, lift, ret.
    simpl.
    destruct (mem ws (clients st)); destruct outcome as [[]|e]; simpl;
      (split; [apply sent_since_app; simpl; rewrite ?app_nil_r; reflexivity
              | rewrite <- app_assoc; reflexivity]). }
  split.
  { intros k v. unfold member_text. cbn [snd fst]. rewrite <- serialize_None.
    destruct (serialize v); split; intros E; try reflexivity; discriminate. }
  split.
  { intros rs events ->.
    destruct (keys_two (currentData (run (initial_server rs) events)))
      as (va & vn & E).
    { rewrite run_keys. reflexivity. }
    exists va, vn. split; [exact E|]. rewrite E. unfold hydration_text.
    change (flat_map member_text [("amount", va); ("name", vn)])
      with (member_text ("amount", va) ++ member_text ("name", vn) ++ []).
    rewrite app_nil_r. reflexivity. }
  split.
  { intros va vn sa sn -> Ha Hn. apply snapshot_frame; assumption. }
  split.
  { intros a n ->. apply snapshot_frame; reflexivity. }
  split.
  { intros parsed Hnot. simpl.
    destruct (mem ws (listening st)) eqn:E; [|reflexivity].
    apply mem_In in E. contradiction. }
  intros rs events parsed Hchanged. simpl in Hchanged.
  destruct (mem ws (listening (run (initial_server rs) events))) eqn:E;
    [|contradiction].
  apply mem_In in E. apply run_listening in E.
  destruct E as [[]|E]. exact E.
Qed.

(** C3, the case the sentence leaves out.  After connection 1 has sent
    an update of [amount] without a value, the store holds [amount] with
    the value [undefined]; a connection made then is sent a payload with
    the member [name] alone.  So it is not in every state of a run that
    the payload carries both fields. *)
Lemma hydration_payload_lacks_stored_field :
  let st := run (initial_server demo_sockets)
              [Connection 1 (Ok tt);
               Message 1 (Ok (VObj [("type", VStr "update");
                                    ("payload", VObj [("field", VStr "amount")])]))] in
  currentData st = [("amount", VUndefined); ("name", VStr "LOADING...")]
  /\ has_own (currentData st) "amount" = true
  /\ sent_since st (on_connection 4 (Ok tt) st)
     = [(4, ("{" ++ quoted "type" ++ ":" ++ quoted "initial_state" ++ ","
             ++ quoted "payload" ++ ":{"
             ++ quoted "name" ++ ":" ++ quoted "LOADING..." ++ "}}")%string)]
  /\ ~ (forall (events : list event) (ws : conn),
          let st := run (initial_server demo_sockets) events in
          exists sa sn,
            sent_since st (on_connection ws (Ok tt) st)
            = [(ws, snapshot_text sa sn)]).
Proof.
  split; [reflexivity|]. split; [reflexivity|]. split; [vm_compute; reflexivity|].
  intros H.
  destruct (H [Connection 1 (Ok tt);
               Message 1 (Ok (VObj [("type", VStr "update");
                                    ("payload", VObj [("field", VStr "amount")])]))]
              4) as (sa & sn & E).
  vm_compute in E. discriminate E.
Qed.

(** *** Last write wins *)

Lemma accepted_by_keys (st st' : server) (wm : conn * value) :
  keys (currentData st') = keys (currentData st) ->
  accepted_by st wm -> accepted_by st' wm.
Proof.
  intros Hk (f & v & Hv & Hown). exists f, v. split; [exact Hv|].
  rewrite (has_own_keys _ _ f Hk). exact Hown.
Qed.

Lemma process_keys (msgs : list (conn * value)) : forall st : server,
  keys (currentData (process st msgs)) = keys (currentData st).
Proof.
  unfold process. induction msgs as [|[ws m] rest IH]; intros st; simpl;
    [reflexivity|].
  rewrite IH. apply keys_on_message.
Qed.

(** One valid update of a known field: what is stored, what is sent and
    how often [broadcast] runs. *)
Lemma accepted_step (ws : conn) (m : value) (f v : string) (st : server) :
  valid_update m = Some (f, v) ->
  has_own (currentData st) f = true ->
  let st' := on_message ws (Ok m) st in
  currentData st' = assign (currentData st) f (VStr v)
  /\ broadcast_calls st' = S (broadcast_calls st)
  /\ sent_since st st'
     = map (fun k => (k, JSON_stringify (update_message (VStr f) (VStr v))))
           (filter (receives st (Some ws)) (clients st))
  /\ forall d, ~ In (ws, d) (sent_since st st').
Proof.
  intros Hv Hown st'. subst st'.
  rewrite (on_message_valid_update ws m f v st Hv Hown).
  set (st1 := log (LogUpdated f v) (set_field f (VStr v) (log LogReceived st))).
  destruct (broadcast_spec (update_message (VStr f) (VStr v)) (Some ws) st1)
    as (Hd & _ & _ & Hw & _ & _).
  assert (Hsent : sent_since st
                    (broadcast (update_message (VStr f) (VStr v)) (Some ws) st1)
                  = map (fun k => (k, JSON_stringify (update_message (VStr f) (VStr v))))
                        (filter (receives st (Some ws)) (clients st))).
  { apply sent_since_app. rewrite Hw. reflexivity. }
  split; [rewrite Hd; reflexivity|].
  split.
  { rewrite broadcast_counts_once. f_equal.
    unfold broadcast_calls, st1. simpl.
    rewrite !filter_app, !length_app. simpl. lia. }
  split; [exact Hsent|].
  intros d H. rewrite Hsent in H. apply in_map_iff in H.
  destruct H as (k & Hk & Hin). injection Hk as -> _.
  apply filter_In in Hin. destruct Hin as [_ Hr].
  apply receives_Some in Hr. destruct Hr as [Hr _]. contradiction.
Qed.

Lemma last_write (msgs : list (conn * value)) : forall st : server,
  Forall (accepted_by st) msgs ->
  forall f,
    own (currentData (process st msgs)) f
    = match last_value f msgs with
      | Some v => Some (VStr v)
      | None => own (currentData st) f
      end.
Proof.
  induction msgs as [|[ws m] rest IH]; intros st Hall f; [reflexivity|].
  inversion Hall as [|wm l Hhead Hrest]; subst.
  destruct Hhead as (f0 & v0 & Hv & Hown). simpl in Hv.
  change (process st ((ws, m) :: rest))
    with (process (on_message ws (Ok m) st) rest).
  assert (Hk : keys (currentData (on_message ws (Ok m) st)) = keys (currentData st))
    by apply keys_on_message.
  rewrite IH
    by (eapply Forall_impl; [|exact Hrest]; intros a; apply accepted_by_keys, Hk).
  simpl. destruct (last_value f rest) as [v|]; [reflexivity|].
  rewrite Hv.
  destruct (accepted_step ws m f0 v0 st Hv Hown) as (-> & _).
  rewrite own_assign by exact Hown.
  destruct (String.eqb f0 f); reflexivity.
Qed.

Lemma process_broadcast_calls (msgs : list (conn * value)) : forall st : server,
  Forall (accepted_by st) msgs ->
  broadcast_calls (process st msgs) = broadcast_calls st + List.length msgs.
Proof.
  induction msgs as [|[ws m] rest IH]; intros st Hall; simpl; [lia|].
  inversion Hall as [|wm l Hhead Hrest]; subst.
  destruct Hhead as (f0 & v0 & Hv & Hown). simpl in Hv.
  change (process st ((ws, m) :: rest))
    with (process (on_message ws (Ok m) st) rest).
  assert (Hk : keys (currentData (on_message ws (Ok m) st)) = keys (currentData st))
    by apply keys_on_message.
  rewrite IH
    by (eapply Forall_impl; [|exact Hrest]; intros a; apply accepted_by_keys, Hk).
  destruct (accepted_step ws m f0 v0 st Hv Hown) as (_ & -> & _). lia.
Qed.

(** C1.  For a sequence of valid update messages, each naming a field of
    the store: after the handler has processed the sequence, the store
    holds for every field the value of the last message that names it
    (and its old value when none does); [broadcast] has been called once
    per message; and the call made for a message hands the serialised
    update to the open registered connections other than the one the
    message arrived on, and nothing to that one. *)
Theorem last_write_wins (st : server) (msgs : list (conn * value)) :
  Forall (accepted_by st) msgs ->
  let st' := process st msgs in
  (forall f,
      own (currentData st') f
      = match last_value f msgs with
        | Some v => Some (VStr v)
        | None => own (currentData st) f
        end)
  /\ broadcast_calls st' = broadcast_calls st + List.length msgs
  /\ (forall pre ws m post,
        msgs = pre ++ (ws, m) :: post ->
        let before := process st pre in
        let after := on_message ws (Ok m) before in
        exists f v,
          valid_update m = Some (f, v)
          /\ own (currentData after) f = Some (VStr v)
          /\ broadcast_calls after = S (broadcast_calls before)
          /\ sent_since before after
             = map (fun k => (k, JSON_stringify (update_message (VStr f) (VStr v))))
                   (filter (receives before (Some ws)) (clients before))
          /\ forall d, ~ In (ws, d) (sent_since before after)).
Proof.
  intros Hall st'. subst st'.
  split; [apply last_write; exact Hall|].
  split; [apply process_broadcast_calls; exact Hall|].
  intros pre ws m post -> before after. subst before after.
  apply Forall_app in Hall. destruct Hall as [_ Hall].
  inversion Hall as [|wm l Hhead _]; subst.
  assert (Hhead' : accepted_by (process st pre) (ws, m))
    by (eapply accepted_by_keys; [apply process_keys | exact Hhead]).
  destruct Hhead' as (f & v & Hv & Hown). simpl in Hv.
  exists f, v.
  destruct (accepted_step ws m f v (process st pre) Hv Hown)
    as (Hd & Hb & Hs & Hn).
  split; [exact Hv|].
  split.
  { rewrite Hd, own_assign by exact Hown. rewrite String.eqb_refl. reflexivity. }
  split; [exact Hb|].
  split; [exact Hs | exact Hn].
Qed.

(** *** The scenario, evaluated *)

Lemma demo_updates_accepted : Forall (accepted_by demo_server) demo_updates.
Proof.
  repeat constructor.
  - exists "amount", "250". split; reflexivity.
  - exists "name", "Ann". split; reflexivity.
  - exists "amount", "300". split; reflexivity.
Qed.

Lemma last_write_wins_witness :
  Forall (accepted_by demo_server) demo_updates
  /\ own (currentData (process demo_server demo_updates)) "amount"
     = Some (VStr "300")
  /\ own (currentData (process demo_server demo_updates)) "name"
     = Some (VStr "Ann")
  /\ broadcast_calls (process demo_server demo_updates) = 3.
Proof.
  pose proof (last_write_wins demo_server demo_updates demo_updates_accepted)
    as (Hstore & Hcalls & _).
  split; [exact demo_updates_accepted|].
  split; [rewrite Hstore; reflexivity|].
  split; [rewrite Hstore; reflexivity|].
  rewrite Hcalls. reflexivity.
Defined.

Lemma protocol_error_discarded_witness :
  is_update_with_payload (VObj [("type", VStr "ping")]) = false
  /\ currentData (on_message 2 (Ok (VObj [("type", VStr "ping")])) demo_server)
     = currentData demo_server
  /\ clients (on_message 2 (Ok (VObj [("type", VStr "ping")])) demo_server)
     = [1; 2; 3]
  /\ wire (on_message 2 (Throw SyntaxError) demo_server) = wire demo_server.
Proof.
  pose proof (protocol_error_discarded 2 (Ok (VObj [("type", VStr "ping")]))
                demo_server eq_refl) as (Hd & Hc & _).
  pose proof (protocol_error_discarded 2 (Throw SyntaxError) demo_server I)
    as (_ & _ & _ & _ & Hw & _).
  split; [reflexivity|].
  split; [exact Hd|].
  split; [rewrite Hc; reflexivity | exact Hw].
Defined.

(** A closed sender stays registered while another closed connection is
    reclaimed by the same call. *)
Example closed_sender_kept_closed_peer_reclaimed :
  clients (broadcast (update_message (VStr "name") (VStr "Ann")) (Some 3)
             (set_readyState 2 CLOSING demo_server))
  = [1; 3].
Proof. reflexivity. Qed.

(** An update whose value cannot be converted to a string (here an object
    with an own [toString]) is written to the store, and the conversion
    for the console line of line 77 throws before [broadcast] is reached. *)
Example unprintable_value_stored_without_broadcast :
  let m := VObj (update_message (VStr "name") (VObj [("toString", VNull)])) in
  let st' := on_message 1 (Ok m) demo_server in
  own (currentData st') "name" = Some (VObj [("toString", VNull)])
  /\ broadcast_calls st' = broadcast_calls demo_server
  /\ sent_since demo_server st' = [].
Proof. repeat split. Qed.

(** An update without a [value] stores [undefined]; [JSON.stringify]
    leaves such a field out, so the frame of the next hydration has no
    [amount] although the store still has the key. *)
Example undefined_value_left_out_of_hydration :
  let m := VObj [("type", VStr "update");
                 ("payload", VObj [("field", VStr "amount")])] in
  let st := on_message 1 (Ok m) demo_server in
  keys (currentData st) = ["amount"; "name"]
  /\ own (currentData st) "amount" = Some VUndefined
  /\ sent_since st (on_connection 4 (Ok tt) st)
     = [(4, JSON_stringify
              (initial_state_message [("name", VStr "LOADING...")]))].
Proof. repeat split. Qed.

(* ------------------------------------------------------------------ *)
(** *** Further properties of the handlers *)
(* ------------------------------------------------------------------ *)

Lemma In_filter_conn (p : conn -> bool) (l : list conn) (c : conn) :
  In c (filter p l) -> In c l.
Proof. intros H. apply filter_In in H. tauto. Qed.

(** The frames one 'message' event adds, for any input. *)
Lemma on_message_sent (ws : conn) (parsed : exc value) (st : server) :
  sent_since st (on_message ws parsed st) = []
  \/ exists field v,
       sent_since st (on_message ws parsed st)
       = map (fun k => (k, JSON_stringify (update_message field v)))
             (filter (receives st (Some ws)) (clients st)).
Proof.
  assert (Hnone : forall st', wire st' = wire st -> sent_since st st' = []).
  { intros st' H. apply sent_since_app. rewrite H, app_nil_r. reflexivity. }
  destruct parsed as [m|e]; [|left; apply Hnone; reflexivity].
  destruct (on_message_cases ws m st)
    as [Hdis|(key & field & v & _ & _ & [(sf & sv & ->)|(e & ->)])].
  - left. apply Hnone. apply (discarded_frame _ _ Hdis).
  - right. exists field, v.
    destruct (broadcast_spec (update_message field v) (Some ws)
                (log (LogUpdated sf sv) (set_field key v (log LogReceived st))))
      as (_ & _ & _ & Hw & _).
    exact (sent_since_app st _ _ Hw).
  - left. apply Hnone. reflexivity.
Qed.

Lemma on_message_wire (ws : conn) (parsed : exc value) (st : server) :
  wire (on_message ws parsed st)
  = wire st ++ sent_since st (on_message ws parsed st).
Proof.
  destruct parsed as [m|e]; [|simpl; unfold sent_since; simpl;
                               rewrite skipn_all, app_nil_r; reflexivity].
  destruct (on_message_cases ws m st)
    as [Hdis|(key & field & v & _ & _ & [(sf & sv & Heq)|(e & Heq)])].
  - destruct (discarded_frame _ _ Hdis) as (_ & _ & _ & _ & Hw & _).
    unfold sent_since. rewrite Hw, skipn_all, app_nil_r. reflexivity.
  - rewrite Heq.
    destruct (broadcast_spec (update_message field v) (Some ws)
                (log (LogUpdated sf sv) (set_field key v (log LogReceived st))))
      as (_ & _ & _ & Hw & _).
    rewrite (sent_since_app st _ _ Hw). exact Hw.
  - rewrite Heq. unfold sent_since. simpl.
    rewrite skipn_all, app_nil_r. reflexivity.
Qed.

(** X1.  Whatever arrives on a connection (a frame that is not JSON, any
    parsed value, a valid update), the 'message' handler hands nothing to
    [send] for that connection, sends only to registered connections that
    are open, never adds a member to the registry and never removes the
    connection the message arrived on; listeners and socket states are
    untouched. *)
Theorem own_message_never_echoed (ws : conn) (parsed : exc value) (st : server) :
  let st' := on_message ws parsed st in
  (forall d, ~ In (ws, d) (sent_since st st'))
  /\ (forall c d, In (c, d) (sent_since st st') ->
                  c <> ws /\ In c (clients st)
                  /\ is_open (readyState st c) = true)
  /\ (In ws (clients st) -> In ws (clients st'))
  /\ (forall c, In c (clients st') -> In c (clients st))
  /\ listening st' = listening st
  /\ readyState st' = readyState st.
Proof.
  intros st'. subst st'.
  assert (Hto : forall c d, In (c, d) (sent_since st (on_message ws parsed st)) ->
                            c <> ws /\ In c (clients st)
                            /\ is_open (readyState st c) = true).
  { intros c d H.
    destruct (on_message_sent ws parsed st) as [Hs|(field & v & Hs)];
      rewrite Hs in H; [destruct H|].
    apply in_map_iff in H. destruct H as (k & Hk & Hin).
    injection Hk as -> _. apply filter_In in Hin. destruct Hin as [Hin Hr].
    apply receives_Some in Hr. tauto. }
  split; [intros d H; apply Hto in H; destruct H as [H _]; congruence|].
  split; [exact Hto|].
  assert (Hreg : (In ws (clients st) -> In ws (clients (on_message ws parsed st)))
                 /\ forall c, In c (clients (on_message ws parsed st)) ->
                              In c (clients st)).
  { destruct parsed as [m|e]; [|split; auto].
    destruct (on_message_cases ws m st)
      as [Hdis|(key & field & v & _ & _ & [(sf & sv & ->)|(e & ->)])].
    - destruct (discarded_frame _ _ Hdis) as (_ & -> & _). split; auto.
    - destruct (broadcast_spec (update_message field v) (Some ws)
                  (log (LogUpdated sf sv) (set_field key v (log LogReceived st))))
        as (_ & _ & _ & _ & -> & _).
      simpl. split.
      + intros H. apply filter_In. split; [exact H|].
        unfold reclaimed. simpl. rewrite Nat.eqb_refl. reflexivity.
      + intros c. apply In_filter_conn.
    - simpl. split; auto. }
  destruct Hreg as [Hkeep Hsub].
  split; [exact Hkeep|]. split; [exact Hsub|].
  destruct (on_message_frame ws parsed st) as (Hl & Hr & _).
  split; assumption.
Qed.

(** X2.  The 'message' handler changes the value of a field of the store
    only when the message is an update-with-payload naming that field and
    the field is a key of the store: every other field, and every field
    under any other input, keeps its value. *)
Theorem update_touches_only_named_field (ws : conn) (parsed : exc value)
    (st : server) (f : string) :
  own (currentData (on_message ws parsed st)) f <> own (currentData st) f ->
  exists m, parsed = Ok m
            /\ update_field m = Some f
            /\ has_own (currentData st) f = true.
Proof.
  destruct parsed as [m|e]; [|intros H; exfalso; apply H; reflexivity].
  intros H. exists m. split; [reflexivity|].
  destruct (on_message_cases ws m st)
    as [Hdis|(key & field & v & Hk & Hown & Hst)].
  - destruct (discarded_frame _ _ Hdis) as (Hd & _).
    rewrite Hd in H. contradiction.
  - destruct (stored_frame _ _ _ _ _ _ Hst) as (Hd & _).
    rewrite Hd, own_assign in H by exact Hown.
    destruct (String.eqb_spec key f) as [->|Hne]; [auto | contradiction].
Qed.

Lemma update_touches_only_named_field_witness :
  own (currentData (on_message 1 (Ok (VObj (update_message (VStr "name") (VStr "Ann"))))
                               demo_server)) "name"
  <> own (currentData demo_server) "name"
  /\ exists m, Ok (VObj (update_message (VStr "name") (VStr "Ann"))) = Ok m
               /\ update_field m = Some "name"
               /\ has_own (currentData demo_server) "name" = true.
Proof.
  assert (H : own (currentData
                     (on_message 1 (Ok (VObj (update_message (VStr "name") (VStr "Ann"))))
                                 demo_server)) "name"
              <> own (currentData demo_server) "name")
    by (vm_compute; discriminate).
  split; [exact H|].
  exact (update_touches_only_named_field 1 _ demo_server "name" H).
Defined.

Lemma clients_delete_spec (ws : conn) (st : server) :
  ~ In ws (clients (clients_delete ws st))
  /\ (forall c, c <> ws ->
                (In c (clients (clients_delete ws st)) <-> In c (clients st)))
  /\ (~ In ws (clients st) -> clients (clients_delete ws st) = clients st).
Proof.
  unfold clients_delete. simpl.
  split; [|split].
  - intros H. apply filter_In in H. destruct H as [_ H].
    rewrite Nat.eqb_refl in H. discriminate.
  - intros c Hne. split.
    + intros H. apply filter_In in H. tauto.
    + intros H. apply filter_In. split; [exact H|].
      destruct (Nat.eqb_spec c ws); [contradiction|reflexivity].
  - intros Hnot. apply forallb_filter_id, forallb_forall. intros x Hx.
    destruct (Nat.eqb_spec x ws) as [->|]; [contradiction|reflexivity].
Qed.

(** X3.  The 'close' handler unregisters the connection and nothing else:
    the connection is no longer a member, every other connection is a
    member exactly as before, a connection that was not registered leaves
    the registry as it is, and store, frames, listeners and socket states
    are untouched.  No broadcast made from the resulting registry sends
    to the connection. *)
Theorem close_unregisters (ws : conn) (st : server) :
  let st' := on_close ws st in
  ~ In ws (clients st')
  /\ (forall c, c <> ws -> (In c (clients st') <-> In c (clients st)))
  /\ (~ In ws (clients st) -> clients st' = clients st)
  /\ currentData st' = currentData st
  /\ wire st' = wire st
  /\ listening st' = listening st
  /\ readyState st' = readyState st
  /\ (forall message sender st2 d,
        clients st2 = clients st' ->
        ~ In (ws, d) (sent_since st2 (broadcast message sender st2))).
Proof.
  intros st'. subst st'. unfold on_close.
  destruct (clients_delete_spec ws (log LogDisconnected st)) as (Hout & Hrest & Hid).
  split; [exact Hout|]. split; [exact Hrest|]. split; [exact Hid|].
  repeat split.
  intros message sender st2 d Hsame H.
  apply sent_to_registered in H. destruct H as (_ & Hin & _).
  rewrite Hsame in Hin. contradiction.
Qed.

(** X4.  The 'error' handler unregisters the connection and closes its
    socket: a socket that is not yet [CLOSED] becomes [CLOSING], a
    [CLOSED] one stays [CLOSED], and no other socket changes state; store
    and frames are untouched.  The 'close' event that follows finds the
    connection already unregistered and changes only the console. *)
Theorem error_unregisters_and_closes (ws : conn) (st : server) :
  let st' := on_error ws st in
  ~ In ws (clients st')
  /\ (forall c, c <> ws -> (In c (clients st') <-> In c (clients st)))
  /\ readyState st' ws = match readyState st ws with
                         | CLOSED => CLOSED
                         | _ => CLOSING
                         end
  /\ is_open (readyState st' ws) = false
  /\ (forall c, c <> ws -> readyState st' c = readyState st c)
  /\ currentData st' = currentData st
  /\ wire st' = wire st
  /\ clients (on_close ws st') = clients st'
  /\ readyState (on_close ws st') = readyState st'.
Proof.
  intros st'. subst st'. unfold on_error.
  destruct (clients_delete_spec ws (log ErrSocket st)) as (Hout & Hrest & _).
  split; [exact Hout|]. split; [exact Hrest|].
  split; [simpl; rewrite Nat.eqb_refl; reflexivity|].
  split; [simpl; rewrite Nat.eqb_refl; destruct (readyState st ws); reflexivity|].
  split.
  { intros c Hc. simpl. destruct (Nat.eqb_spec c ws); [contradiction|reflexivity]. }
  repeat split.
  unfold on_close.
  apply (clients_delete_spec ws
           (log LogDisconnected (close_socket ws (clients_delete ws (log ErrSocket st))))).
  exact Hout.
Qed.

(** X5.  An update of a known field whose value cannot be converted to a
    string (the conversion for the console line of line 77 throws) is
    written to the store all the same, and the handler stops before
    [broadcast]: no frame is sent, [broadcast] is not called and the
    registry is unchanged, so the store and the viewers disagree until a
    later update or hydration. *)
Theorem unprintable_value_stored_not_broadcast
    (ws : conn) (m v : value) (key : string) (e : js_error) (st : server) :
  update_field m = Some key ->
  has_own (currentData st) key = true ->
  exc_bind (Get m "payload") (fun payload => Get payload "value") = Ok v ->
  ToString v = Throw e ->
  let st' := on_message ws (Ok m) st in
  own (currentData st') key = Some v
  /\ (forall f, f <> key -> own (currentData st') f = own (currentData st) f)
  /\ sent_since st st' = []
  /\ broadcast_calls st' = broadcast_calls st
  /\ clients st' = clients st.
Proof.
  intros Hk Hown Hv He st'.
  assert (Heq : st' = log (ErrProcessFailed e)
                        (set_field key v (log LogReceived st))).
  { subst st'. revert Hk Hv.
    unfold update_field, is_update_with_payload. unfold_handler. simpl.
    destruct (Get m "type") as [type|e0]; [|discriminate].
    destruct (strict_eq_string type "update"); [|discriminate]. simpl.
    destruct (Get m "payload") as [payload|e0]; [|discriminate].
    destruct (truthy payload); [|discriminate]. simpl.
    destruct (Get payload "field") as [field|e0]; simpl; [|discriminate].
    destruct (ToString field) as [k|e0] eqn:Hfield; simpl; [|discriminate].
    intros Hkey Hval. injection Hkey as Hkey. subst k.
    rewrite Hval. simpl. rewrite Hown. simpl. rewrite He. reflexivity. }
  rewrite Heq. simpl.
  split; [rewrite own_assign by exact Hown; rewrite String.eqb_refl; reflexivity|].
  split.
  { intros f Hf. rewrite own_assign by exact Hown.
    destruct (String.eqb_spec key f); [congruence|reflexivity]. }
  split; [apply sent_since_app; simpl; rewrite app_nil_r; reflexivity|].
  split; [|reflexivity].
  unfold broadcast_calls. simpl. rewrite !filter_app, !length_app. simpl. lia.
Qed.

Lemma unprintable_value_stored_not_broadcast_witness :
  let m := VObj (update_message (VStr "name") (VArr [VObj [("toString", VNum "1")]])) in
  let st' := on_message 2 (Ok m) demo_server in
  update_field m = Some "name"
  /\ ToString (VArr [VObj [("toString", VNum "1")]]) = Throw TypeError
  /\ own (currentData st') "name" = Some (VArr [VObj [("toString", VNum "1")]])
  /\ sent_since demo_server st' = [].
Proof.
  pose proof (unprintable_value_stored_not_broadcast 2
                (VObj (update_message (VStr "name")
                                      (VArr [VObj [("toString", VNum "1")]])))
                (VArr [VObj [("toString", VNum "1")]]) "name" TypeError
                demo_server eq_refl eq_refl eq_refl eq_refl)
    as (Hstore & _ & Hsent & _).
  split; [reflexivity|]. split; [reflexivity|].
  split; [exact Hstore | exact Hsent].
Defined.

Lemma on_connection_parts (ws : conn) (o : exc unit) (st : server) :
  listening (on_connection ws o st) = listening (attach_listeners ws st)
  /\ wire (on_connection ws o st)
     = wire st ++ match o with
                  | Ok _ => [(ws, JSON_stringify
                                    (initial_state_message (currentData st)))]
                  | Throw _ => []
                  end.
Proof.
  unfold on_connection, send_initial_state, clients_add,
    exec, bind, effect, try_catch, read, lift, ret.
  simpl.
  destruct (mem ws (clients st)); destruct o as [[]|e]; simpl;
    rewrite ?app_nil_r; split; reflexivity.
Qed.

Lemma attach_listeners_In (ws c : conn) (st : server) :
  In c (listening (attach_listeners ws st)) <-> In c (listening st) \/ c = ws.
Proof.
  unfold attach_listeners. simpl.
  destruct (mem ws (listening st)) eqn:E.
  - apply mem_In in E. split; [auto|]. intros [H | ->]; assumption.
  - rewrite in_app_iff. simpl. split.
    + intros [H|[H|[]]]; auto.
    + intros [H|H]; auto.
Qed.

Lemma clients_add_members (ws c : conn) (st : server) :
  In c (clients (clients_add ws st)) -> In c (clients st) \/ c = ws.
Proof.
  unfold clients_add. destruct (mem ws (clients st)); [auto|].
  simpl. rewrite in_app_iff. simpl. intros [H|[H|[]]]; auto.
Qed.

(** The invariant behind X6. *)
Lemma step_accepted_only (st : server) (e : event) :
  keys (currentData st) = ["amount"; "name"] ->
  (forall c, In c (clients st) -> In c (listening st)) ->
  (forall c d, In (c, d) (wire st) -> In c (listening st) /\ protocol_frame d) ->
  (forall c, In c (clients (step st e)) -> In c (listening (step st e)))
  /\ (forall c d, In (c, d) (wire (step st e)) ->
                  In c (listening (step st e)) /\ protocol_frame d).
Proof.
  intros Hkeys Hreg Hwire.
  destruct e as [ws o|ws parsed|ws|ws|ws|ws r]; simpl.
  - destruct (on_connection_parts ws o st) as [Hl Hw].
    rewrite on_connection_clients, Hl, Hw. split.
    + intros c H. apply attach_listeners_In.
      apply clients_add_members in H. destruct H as [H|H]; auto.
    + intros c d H. rewrite attach_listeners_In. apply in_app_or in H.
      destruct H as [H|H].
      * apply Hwire in H. tauto.
      * destruct o as [[]|e]; [|destruct H].
        destruct H as [H|[]]. injection H as <- <-.
        split; [auto|]. left. exists (currentData st). auto.
  - destruct (mem ws (listening st)); [|auto].
    destruct (on_message_frame ws parsed st) as (Hl & _ & p & Hc).
    rewrite Hl, Hc, on_message_wire. split.
    + intros c H. apply In_filter_conn in H. auto.
    + intros c d H. apply in_app_or in H. destruct H as [H|H]; [auto|].
      destruct (on_message_sent ws parsed st) as [Hs|(field & v & Hs)];
        rewrite Hs in H; [destruct H|].
      apply in_map_iff in H. destruct H as (k & Hk & Hin).
      injection Hk as <- <-. apply In_filter_conn in Hin.
      split; [auto|]. right. eauto.
  - destruct (mem ws (listening st)); [|auto]. simpl. split; [|exact Hwire].
    intros c H. apply In_filter_conn in H. auto.
  - destruct (mem ws (listening st)); [|auto]. simpl. split; [|exact Hwire].
    intros c H. apply In_filter_conn in H. auto.
  - auto.
  - auto.
Qed.

Lemma run_accepted_only (events : list event) : forall st : server,
  keys (currentData st) = ["amount"; "name"] ->
  (forall c, In c (clients st) -> In c (listening st)) ->
  (forall c d, In (c, d) (wire st) -> In c (listening st) /\ protocol_frame d) ->
  forall c d, In (c, d) (wire (run st events)) ->
              In c (listening (run st events)) /\ protocol_frame d.
Proof.
  unfold run. induction events as [|e rest IH]; intros st Hk Hreg Hwire; simpl;
    [exact Hwire|].
  destruct (step_accepted_only st e Hk Hreg Hwire) as [Hreg' Hwire'].
  apply IH; [rewrite step_keys; exact Hk | exact Hreg' | exact Hwire'].
Qed.

(** X6.  In every run from the initial state, each frame the authority
    has handed to [send] is addressed to a connection whose 'connection'
    event it has handled, and is the serialisation of one of the two
    messages of the protocol: an [initial_state] over the fields [amount]
    and [name], or an [update].  No other frame (no error frame) is ever
    sent. *)
Theorem frames_only_to_accepted_connections
    (rs : conn -> ready_state) (events : list event) (c : conn) (d : string) :
  In (c, d) (wire (run (initial_server rs) events)) ->
  (exists o, In (Connection c o) events) /\ protocol_frame d.
Proof.
  intros H.
  apply run_accepted_only in H;
    [ | reflexivity | intros x [] | intros x y [] ].
  destruct H as [Hl Hp]. split; [|exact Hp].
  apply run_listening in Hl. destruct Hl as [[]|Hl]. exact Hl.
Qed.

Lemma frames_only_to_accepted_connections_witness :
  In (2, JSON_stringify (update_message (VStr "amount") (VStr "250")))
     (wire (run (initial_server demo_sockets)
                [Connection 1 (Ok tt); Connection 2 (Throw TransportError);
                 Message 1 (Ok (VObj (update_message (VStr "amount") (VStr "250"))))]))
  /\ (exists o, In (Connection 2 o)
                   [Connection 1 (Ok tt); Connection 2 (Throw TransportError);
                    Message 1 (Ok (VObj (update_message (VStr "amount")
                                                        (VStr "250"))))])
  /\ protocol_frame (JSON_stringify (update_message (VStr "amount") (VStr "250"))).
Proof.
  assert (H : In (2, JSON_stringify (update_message (VStr "amount") (VStr "250")))
                 (wire (run (initial_server demo_sockets)
                            [Connection 1 (Ok tt); Connection 2 (Throw TransportError);
                             Message 1 (Ok (VObj (update_message (VStr "amount")
                                                                 (VStr "250"))))])))
    by (right; left; reflexivity).
  split; [exact H|].
  exact (frames_only_to_accepted_connections demo_sockets _ 2 _ H).
Defined.

End ServerFacts.

(* ================================================================== *)
(** ** Properties of the viewer *)
(* ================================================================== *)

Module ClientFacts.
Import JS Client.
#[local] Open Scope list_scope.
#[local] Arguments JSON_stringify : simpl never.

(** *** Elements *)

Lemma nth_error_update_nth (f : element -> element) (doc : list element) :
  forall i j,
    nth_error (update_nth i f doc) j
    = if Nat.eqb i j then option_map f (nth_error doc j) else nth_error doc j.
Proof.
  induction doc as [|e rest IH]; intros [|i] [|j]; simpl; try reflexivity.
  - destruct (Nat.eqb i j); reflexivity.
  - apply IH.
Qed.

Lemma find_field_update_nth (g : element -> element) (f : string) :
  (forall e, data_field (g e) = data_field e) ->
  forall doc i, find_field (update_nth i g doc) f = find_field doc f.
Proof.
  intros Hg. induction doc as [|e rest IH]; intros [|i]; simpl; try reflexivity.
  - rewrite Hg. reflexivity.
  - rewrite IH. reflexivity.
Qed.

Lemma find_field_Some (doc : list element) (f : string) :
  forall i, find_field doc f = Some i ->
            exists e, nth_error doc i = Some e /\ data_field e = f.
Proof.
  induction doc as [|e rest IH]; intros i; simpl; [discriminate|].
  destruct (String.eqb_spec (data_field e) f) as [Heq|Hne].
  - intros [= <-]. exists e. auto.
  - destruct (find_field rest f) as [j|] eqn:Hj; simpl; [|discriminate].
    intros [= <-]. simpl. apply IH. reflexivity.
Qed.

Lemma displayed_set_textContent (cl : client) (i j : nat) (s : string) :
  displayed (set_textContent i s cl) j
  = if Nat.eqb i j then option_map (fun _ => s) (displayed cl j)
    else displayed cl j.
Proof.
  unfold displayed, set_textContent. simpl. rewrite nth_error_update_nth.
  destruct (Nat.eqb i j); [|reflexivity].
  destruct (nth_error (document cl) j); reflexivity.
Qed.

Lemma editing_set_textContent (cl : client) (i j : nat) (s : string) :
  editing (set_textContent i s cl) j = editing cl j.
Proof.
  unfold editing, set_textContent. simpl. rewrite nth_error_update_nth.
  destruct (Nat.eqb i j); [|reflexivity].
  destruct (nth_error (document cl) j); reflexivity.
Qed.

Lemma find_field_set_textContent (cl : client) (i : nat) (s f : string) :
  find_field (document (set_textContent i s cl)) f = find_field (document cl) f.
Proof.
  unfold set_textContent. simpl. apply find_field_update_nth. reflexivity.
Qed.

Lemma bound_displayed (cl : client) (f : string) (i : nat) :
  find_field (document cl) f = Some i -> exists t, displayed cl i = Some t.
Proof.
  intros H. apply find_field_Some in H. destruct H as (e & He & _).
  unfold displayed. rewrite He. simpl. eauto.
Qed.

(** Two fields bound to one element are one field. *)
Lemma find_field_injective (doc : list element) (f g : string) (i : nat) :
  find_field doc f = Some i -> find_field doc g = Some i -> f = g.
Proof.
  intros Hf Hg.
  apply find_field_Some in Hf. apply find_field_Some in Hg.
  destruct Hf as (e & He & <-). destruct Hg as (e' & He' & <-).
  congruence.
Qed.

(** *** ws.onmessage *)

Ltac unfold_onmessage :=
  unfold on_message, process_message, has_shape, apply_update, hydrate_entry,
    exec, try_catch, bind, lift, effect, read, ret, exc_bind.

(** What an [update] message does to a page on which its field is bound
    to element [i]. *)
Lemma on_message_update (cl : client) (m : value) (f v : string) (i : nat) :
  valid_update m = Some (f, v) ->
  bound cl f i ->
  on_message (Ok m) cl
  = let cl1 := log LogMessageReceived cl in
    if editing cl i then log (LogSkippingUpdate f) cl1
    else if match displayed cl i with
            | Some t => String.eqb v t
            | None => false
            end
    then cl1
    else log (LogUpdatedField f v) (set_textContent i v cl1).
Proof.
  unfold valid_update, bound.
  destruct m as [| | | | |?|props]; try discriminate.
  destruct (own props "type") as [[| | | |t| |]|] eqn:Ht; try discriminate.
  destruct (own props "payload") as [[| | | | | |payload]|] eqn:Hp; try discriminate.
  destruct (String.eqb_spec t "update") as [->|]; [|discriminate].
  destruct (own payload "field") as [[| | | |f'| |]|] eqn:Hf; try discriminate.
  destruct (own payload "value") as [[| | | |v'| |]|] eqn:Hv; try discriminate.
  intros Heq [Hsafe Hfind]. injection Heq as -> ->.
  unfold_onmessage. unfold querySelector. simpl.
  rewrite Ht, Hp. simpl. rewrite Hf, Hv. simpl.
  rewrite Hsafe, Hfind. simpl.
  change (editing (log LogMessageReceived cl) i) with (editing cl i).
  change (displayed (log LogMessageReceived cl) i) with (displayed cl i).
  destruct (editing cl i); simpl.
  - rewrite andb_false_r. reflexivity.
  - rewrite andb_true_r.
    destruct (displayed cl i) as [t|]; simpl; [|reflexivity].
    destruct (String.eqb v t); reflexivity.
Qed.

(** C6.  An [update] for a field whose element is being edited leaves
    every element as it is; the same [update] received when the element
    is idle leaves the element displaying the update's value (it is
    written when the text differs, and already there otherwise).  In
    particular the update skipped during an edit takes effect when it is
    received again after the edit was cancelled. *)
Theorem update_suppressed_while_editing
    (cl : client) (m : value) (f v : string) (i : nat) :
  valid_update m = Some (f, v) ->
  bound cl f i ->
  let cl' := on_message (Ok m) cl in
  (editing cl i = true ->
     document cl' = document cl
     /\ displayed (on_message (Ok m) (on_keydown i Escape cl')) i = Some v)
  /\ (editing cl i = false ->
        displayed cl' i = Some v
        /\ forall j, j <> i -> displayed cl' j = displayed cl j).
Proof.
  intros Hv Hb cl'. subst cl'.
  assert (Hidle : forall c, bound c f i -> editing c i = false ->
                            displayed (on_message (Ok m) c) i = Some v
                            /\ forall j, j <> i ->
                                 displayed (on_message (Ok m) c) j = displayed c j).
  { intros c Hc He. rewrite (on_message_update c m f v i Hv Hc). simpl.
    rewrite He.
    destruct Hc as [_ Hfind]. destruct (bound_displayed _ _ _ Hfind) as [t Ht].
    rewrite Ht. destruct (String.eqb_spec v t) as [->|Hne].
    - split; [exact Ht | reflexivity].
    - split.
      + change (displayed (set_textContent i v (log LogMessageReceived c)) i = Some v).
        rewrite displayed_set_textContent, Nat.eqb_refl.
        change (displayed (log LogMessageReceived c) i) with (displayed c i).
        rewrite Ht. reflexivity.
      + intros j Hj.
        change (displayed (set_textContent i v (log LogMessageReceived c)) j
                = displayed c j).
        rewrite displayed_set_textContent.
        destruct (Nat.eqb_spec i j); [congruence|reflexivity]. }
  split; [|apply Hidle; exact Hb].
  intros He. rewrite (on_message_update cl m f v i Hv Hb). simpl. rewrite He.
  split; [reflexivity|].
  destruct Hb as [Hsafe Hfind].
  destruct (find_field_Some _ _ _ Hfind) as (e & Hnth & _).
  apply Hidle.
  - split; [exact Hsafe|].
    unfold on_keydown. simpl. rewrite Hnth. simpl.
    rewrite !find_field_update_nth by reflexivity. exact Hfind.
  - unfold on_keydown, editing. simpl. rewrite Hnth. simpl.
    rewrite !nth_error_update_nth, Nat.eqb_refl, Hnth. reflexivity.
Qed.

(** *** Hydration *)

Lemma shared_state_cons (k : string) (x : value) (rest : list (string * value))
    (data : list (string * string)) :
  shared_state ((k, x) :: rest) = Some data ->
  exists v l, x = VStr v /\ data = (k, v) :: l /\ shared_state rest = Some l.
Proof.
  simpl. destruct x as [| | | |v| |]; try discriminate.
  destruct (shared_state rest) as [l|]; [|discriminate].
  intros [= <-]. eauto.
Qed.

(** The loop of line 278 over a [SharedState] with safe names: it runs
    to its end, touches only the text of elements, writes the value of
    every bound field and leaves the text of every other element. *)
Lemma forEach_hydrate (payload : list (string * value)) :
  forall (data : list (string * string)) (cl : client),
    shared_state payload = Some data ->
    Forall (fun fv => selector_safe (fst fv) = true) data ->
    exists cl',
      forEach hydrate_entry payload cl = (cl', Ok tt)
      /\ (forall f, find_field (document cl') f = find_field (document cl) f)
      /\ (forall j, editing cl' j = editing cl j)
      /\ originalEditValue cl' = originalEditValue cl
      /\ ws cl' = ws cl /\ wire cl' = wire cl /\ console cl' = console cl
      /\ (forall j,
            (forall fv, In fv data -> find_field (document cl) (fst fv) <> Some j) ->
            displayed cl' j = displayed cl j)
      /\ (NoDup (map fst data) ->
          forall f v i,
            In (f, v) data -> find_field (document cl) f = Some i ->
            displayed cl' i = Some v).
Proof.
  induction payload as [|[k x] rest IH]; intros data cl Hss Hsafe.
  - injection Hss as <-. exists cl. simpl. repeat split; auto.
    intros _ f v i [].
  - destruct (shared_state_cons _ _ _ _ Hss) as (v & l & -> & -> & Hl).
    inversion Hsafe as [|fv l' Hk Hrest]; subst. simpl in Hk.
    set (cl1 := match find_field (document cl) k with
                | Some i => set_textContent i v cl
                | None => cl
                end).
    assert (Hstep : hydrate_entry (k, VStr v) cl = (cl1, Ok tt)).
    { unfold hydrate_entry, querySelector, bind, lift, read, effect, ret, cl1.
      simpl. rewrite Hk. destruct (find_field (document cl) k); reflexivity. }
    assert (Hfind1 : forall f, find_field (document cl1) f = find_field (document cl) f).
    { intros f. unfold cl1. destruct (find_field (document cl) k);
        [apply find_field_set_textContent | reflexivity]. }
    assert (Hedit1 : forall j, editing cl1 j = editing cl j).
    { intros j. unfold cl1. destruct (find_field (document cl) k);
        [apply editing_set_textContent | reflexivity]. }
    assert (Hother1 : forall j, find_field (document cl) k <> Some j ->
                                displayed cl1 j = displayed cl j).
    { intros j Hj. unfold cl1.
      destruct (find_field (document cl) k) as [i|]; [|reflexivity].
      rewrite displayed_set_textContent.
      destruct (Nat.eqb_spec i j); [congruence|reflexivity]. }
    assert (Hframe1 : originalEditValue cl1 = originalEditValue cl
                      /\ ws cl1 = ws cl /\ wire cl1 = wire cl
                      /\ console cl1 = console cl).
    { unfold cl1. destruct (find_field (document cl) k); repeat split. }
    destruct Hframe1 as (Ho1 & Hws1 & Hw1 & Hc1).
    destruct (IH l cl1 Hl Hrest)
      as (cl' & Hrun & Hfind & Hedit & Ho & Hws & Hw & Hc & Hother & Hwritten).
    exists cl'.
    split.
    { change (forEach hydrate_entry ((k, VStr v) :: rest) cl)
        with (bind (hydrate_entry (k, VStr v))
                   (fun _ => forEach hydrate_entry rest) cl).
      unfold bind. rewrite Hstep. exact Hrun. }
    split; [intros f; rewrite Hfind; apply Hfind1|].
    split; [intros j; rewrite Hedit; apply Hedit1|].
    split; [congruence|]. split; [congruence|].
    split; [congruence|]. split; [congruence|].
    split.
    { intros j Hj. rewrite Hother.
      - apply Hother1. apply (Hj (k, v)). left. reflexivity.
      - intros fv Hin. rewrite Hfind1. apply Hj. right. exact Hin. }
    intros Hnd f w i Hin Hi. simpl in Hnd. inversion Hnd as [|a b Hnotin Hnd']; subst.
    destruct Hin as [Heq|Hin].
    + injection Heq as <- <-.
      rewrite Hother.
      * unfold cl1. rewrite Hi, displayed_set_textContent, Nat.eqb_refl.
        destruct (bound_displayed _ _ _ Hi) as [t ->]. reflexivity.
      * intros [g u] Hg Hgi. simpl in Hgi. rewrite Hfind1 in Hgi.
        assert (g = k) by (eapply find_field_injective; eassumption).
        subst g. apply Hnotin. apply (in_map fst) in Hg. exact Hg.
    + apply (Hwritten Hnd' f w i Hin). rewrite Hfind1. exact Hi.
Qed.


(** *** Committing an edit *)

(** What [finishEditing] does to an element that is being edited. *)
Lemma finishEditing_spec (cl : client) (i : nat) (e : element) :
  nth_error (document cl) i = Some e ->
  contenteditable e = true ->
  let cl' := finishEditing i cl in
  let newValue := trim (textContent e) in
  editing cl' i = false
  /\ originalEditValue cl' = originalEditValue cl
  /\ if String.eqb newValue "" || String.eqb newValue (originalEditValue cl)
     then wire cl' = wire cl /\ displayed cl' i = Some (originalEditValue cl)
     else if connected cl
     then wire cl' = wire cl ++ [JSON_stringify
                                   (update_message (VStr (data_field e))
                                                   (VStr newValue))]
          /\ displayed cl' i = Some (textContent e)
     else wire cl' = wire cl /\ displayed cl' i = Some (originalEditValue cl).
Proof.
  intros Hnth Hed. unfold finishEditing. rewrite Hnth, Hed. simpl.
  change (connected (set_contenteditable i false cl)) with (connected cl).
  destruct (String.eqb (trim (textContent e)) "" ||
            String.eqb (trim (textContent e)) (originalEditValue cl));
    [|destruct (connected cl)];
    unfold editing, displayed; simpl;
    rewrite !nth_error_update_nth, !Nat.eqb_refl, Hnth; simpl; auto.
Qed.

(** A commit sends a frame only for a connected viewer and a trimmed text
    that is neither empty nor the captured value. *)
Lemma commit_sends_only_if (cl : client) (i : nat) :
  wire (finishEditing i cl) <> wire cl ->
  connected cl = true
  /\ exists e, nth_error (document cl) i = Some e
               /\ trim (textContent e) <> ""
               /\ trim (textContent e) <> originalEditValue cl.
Proof.
  unfold finishEditing.
  destruct (nth_error (document cl) i) as [e|] eqn:Hnth; [|congruence].
  destruct (contenteditable e); simpl; [|congruence].
  change (connected (set_contenteditable i false cl)) with (connected cl).
  destruct (String.eqb_spec (trim (textContent e)) "") as [|Hne]; simpl;
    [congruence|].
  destruct (String.eqb_spec (trim (textContent e)) (originalEditValue cl))
    as [|Hne']; simpl; [congruence|].
  destruct (connected cl); simpl; [|congruence].
  intros _. split; [reflexivity|]. exists e. auto.
Qed.

(** C8, at the failing input.  The element displays [" 100 "]; the user
    starts an edit and commits it without touching the text, the channel
    being connected.  The text compared with the captured value is the
    trimmed one, so the commit counts as a change: an [update] carrying
    ["100"] is sent although the displayed text equals the value captured
    at edit start. *)
Example commit_of_unchanged_padded_text_sends :
  let cl := run padded_client [DblClick 0; KeyDown 0 Enter] in
  displayed padded_client 0 = Some " 100 "
  /\ originalEditValue cl = " 100 "
  /\ displayed cl 0 = Some " 100 "
  /\ connected cl = true
  /\ wire cl = [JSON_stringify (update_message (VStr "amount") (VStr "100"))].
Proof. repeat split. Qed.

(** *** One captured value for all fields *)

(** An edit of one field that is started and cancelled with no other edit
    started in between restores the captured text. *)
Lemma cancel_restores_captured_text (cl : client) (i : nat) (e : element)
    (typed : string) :
  nth_error (document cl) i = Some e ->
  contenteditable e = false ->
  connected cl = true ->
  displayed (run cl [DblClick i; Input i typed; KeyDown i Escape]) i
  = Some (textContent e).
Proof.
  intros Hnth Hidle Hconn. unfold run. simpl.
  unfold on_dblclick. rewrite Hnth, Hidle, Hconn. simpl.
  unfold editing. simpl. rewrite nth_error_update_nth, Nat.eqb_refl, Hnth. simpl.
  unfold on_keydown, displayed. simpl.
  rewrite !nth_error_update_nth, !Nat.eqb_refl, Hnth. simpl.
  rewrite !nth_error_update_nth, !Nat.eqb_refl, Hnth. reflexivity.
Qed.

(** C9, at the failing input.  [amount] displays ["100"] and [name]
    displays ["Bob"].  The user starts editing [amount] and clears it,
    then double-clicks [name] before the blur timer of [amount] fires:
    [originalEditValue] now holds ["Bob"].  When the timer commits the
    empty [amount], the element is reverted to ["Bob"], not to the
    ["100"] captured at its own edit start.  The same happens when the
    edit of [amount] is cancelled with Escape. *)
Example revert_restores_other_fields_value :
  let blur := run demo_client [DblClick 0; Input 0 ""; DblClick 1; BlurTimeout 0] in
  let esc := run demo_client [DblClick 0; DblClick 1; KeyDown 0 Escape] in
  displayed demo_client 0 = Some "100"
  /\ originalEditValue (run demo_client [DblClick 0]) = "100"
  /\ displayed blur 0 = Some "Bob"
  /\ displayed esc 0 = Some "Bob"
  /\ wire blur = [] /\ wire esc = [].
Proof. repeat split. Qed.

(** *** The pages, evaluated *)

Lemma update_suppressed_while_editing_witness :
  let m := VObj (update_message (VStr "name") (VStr "Alice")) in
  let mid_edit := run demo_client [DblClick 1; Input 1 "Al"] in
  valid_update m = Some ("name", "Alice")
  /\ bound mid_edit "name" 1
  /\ editing mid_edit 1 = true
  /\ displayed (on_message (Ok m) mid_edit) 1 = Some "Al"
  /\ displayed (on_message (Ok m) (on_keydown 1 Escape (on_message (Ok m) mid_edit))) 1
     = Some "Alice"
  /\ displayed (on_message (Ok m) demo_client) 1 = Some "Alice".
Proof.
  pose (m := VObj (update_message (VStr "name") (VStr "Alice"))).
  pose (mid_edit := run demo_client [DblClick 1; Input 1 "Al"]).
  assert (Hb : bound mid_edit "name" 1) by (split; reflexivity).
  assert (Hb0 : bound demo_client "name" 1) by (split; reflexivity).
  pose proof (update_suppressed_while_editing mid_edit m "name" "Alice" 1
                eq_refl Hb) as [Hediting _].
  pose proof (update_suppressed_while_editing demo_client m "name" "Alice" 1
                eq_refl Hb0) as [_ Hidle].
  destruct (Hediting eq_refl) as [Hdoc Hlater].
  destruct (Hidle eq_refl) as [Hnow _].
  split; [reflexivity|].
  split; [exact Hb|].
  split; [reflexivity|].
  split; [unfold displayed; fold m mid_edit; rewrite Hdoc; reflexivity|].
  split; [exact Hlater | exact Hnow].
Defined.



(* ------------------------------------------------------------------ *)
(** *** What an incoming message can change *)
(* ------------------------------------------------------------------ *)

Lemma same_but_text_refl (cl : client) : same_but_text cl cl.
Proof. repeat split. Qed.

Lemma same_but_text_trans (a b c : client) :
  same_but_text a b -> same_but_text b c -> same_but_text a c.
Proof.
  intros (H1 & H2 & H3 & H4 & H5) (K1 & K2 & K3 & K4 & K5).
  repeat split; congruence.
Qed.

Lemma map_update_nth {B : Type} (g : element -> B) (f : element -> element) :
  (forall e, g (f e) = g e) ->
  forall doc i, map g (update_nth i f doc) = map g doc.
Proof.
  intros Hg. induction doc as [|e rest IH]; intros [|i]; simpl; try reflexivity.
  - rewrite Hg. reflexivity.
  - rewrite IH. reflexivity.
Qed.

Lemma same_but_text_set_textContent (cl : client) (i : nat) (s : string) :
  same_but_text cl (set_textContent i s cl).
Proof.
  unfold same_but_text, set_textContent. simpl.
  rewrite !map_update_nth by reflexivity. repeat split.
Qed.

Lemma same_but_text_log (cl : client) (l : log_line) :
  same_but_text cl (log l cl).
Proof. repeat split. Qed.

Lemma text_only_bind {A B : Type} (m : M client A) (k : A -> M client B) :
  text_only m -> (forall a, text_only (k a)) -> text_only (bind m k).
Proof.
  intros Hm Hk cl. unfold bind. specialize (Hm cl).
  destruct (m cl) as [cl1 [a|e]]; simpl in *; [|exact Hm].
  eapply same_but_text_trans; [exact Hm | apply Hk].
Qed.

Lemma text_only_lift {A : Type} (r : exc A) : text_only (lift (S := client) r).
Proof. intros cl. apply same_but_text_refl. Qed.

Lemma text_only_ret {A : Type} (a : A) : text_only (ret (S := client) a).
Proof. intros cl. apply same_but_text_refl. Qed.

Lemma text_only_read {A : Type} (f : client -> A) : text_only (read f).
Proof. intros cl. apply same_but_text_refl. Qed.

Lemma text_only_log (l : log_line) : text_only (effect (log l)).
Proof. intros cl. apply same_but_text_log. Qed.

Lemma text_only_set_textContent (i : nat) (s : string) :
  text_only (effect (set_textContent i s)).
Proof. intros cl. apply same_but_text_set_textContent. Qed.

Lemma text_only_try_catch (body : M client unit) (handler : js_error -> M client unit) :
  text_only body -> (forall e, text_only (handler e)) ->
  text_only (try_catch body handler).
Proof.
  intros Hb Hh cl. unfold try_catch. specialize (Hb cl).
  destruct (body cl) as [cl1 [[]|e]]; simpl in *; [exact Hb|].
  eapply same_but_text_trans; [exact Hb | apply Hh].
Qed.

Ltac text_only_step :=
  first
    [ apply text_only_bind; [|intros ?]
    | apply text_only_lift
    | apply text_only_ret
    | apply text_only_read
    | apply text_only_log
    | apply text_only_set_textContent
    | match goal with
      | |- text_only (if ?b then _ else _) => destruct b
      | |- text_only (match ?x with _ => _ end) => destruct x
      | |- text_only (let (_, _) := ?x in _) => destruct x
      end ].

Lemma text_only_hydrate_entry (entry : string * value) :
  text_only (hydrate_entry entry).
Proof. unfold hydrate_entry. repeat text_only_step. Qed.

Lemma text_only_forEach {A : Type} (f : A -> M client unit) (l : list A) :
  (forall x, text_only (f x)) -> text_only (forEach f l).
Proof.
  intros Hf. induction l as [|x rest IH]; simpl.
  - apply text_only_ret.
  - apply text_only_bind; [apply Hf | intros _; exact IH].
Qed.

Lemma text_only_process_message (parsed : exc value) :
  text_only (process_message parsed).
Proof.
  unfold process_message, has_shape, apply_update.
  repeat first
    [ apply text_only_forEach; intros ?; apply text_only_hydrate_entry
    | text_only_step ].
Qed.

Lemma on_message_same_but_text (parsed : exc value) (cl : client) :
  same_but_text cl (on_message parsed cl).
Proof.
  unfold on_message, exec.
  apply (text_only_try_catch (process_message parsed)
           (fun e => effect (log (ErrMessageFailed e)))).
  - apply text_only_process_message.
  - intros e. apply text_only_log.
Qed.

(** X11.  Whatever the socket delivers whose field names are
    selector-safe (a frame that is not JSON, any parsed value of another
    shape, an update, a hydration, also one that throws half-way),
    handling it sends nothing, leaves [ws] and the captured
    [originalEditValue] as they are, and neither adds, removes or renames
    an element nor starts or ends an edit: it can change the text of
    elements and nothing else. *)
Theorem incoming_message_changes_text_only (parsed : exc value) (cl : client) :
  selectors_safe parsed = true ->
  let cl' := on_message parsed cl in
  wire cl' = wire cl
  /\ ws cl' = ws cl
  /\ originalEditValue cl' = originalEditValue cl
  /\ map data_field (document cl') = map data_field (document cl)
  /\ map contenteditable (document cl') = map contenteditable (document cl)
  /\ forall i, editing cl' i = editing cl i.
Proof.
  intros _ cl'. subst cl'.
  destruct (on_message_same_but_text parsed cl) as (H1 & H2 & H3 & H4 & H5).
  repeat split; try assumption.
  intros i. unfold editing.
  assert (Hnth : nth_error (map contenteditable (document (on_message parsed cl))) i
                 = nth_error (map contenteditable (document cl)) i)
    by (rewrite H5; reflexivity).
  rewrite !nth_error_map in Hnth.
  destruct (nth_error (document (on_message parsed cl)) i),
           (nth_error (document cl) i); simpl in Hnth; congruence.
Qed.

Lemma incoming_message_changes_text_only_witness :
  let parsed := Ok (VObj (initial_state_message
                            [("amount", VStr "250");
                             ("name", VObj [("toString", VNull)])])) in
  let mid_edit := run demo_client [DblClick 0; Input 0 "2"] in
  selectors_safe parsed = true
  /\ displayed (on_message parsed mid_edit) 0 = Some "250"
  /\ editing (on_message parsed mid_edit) 0 = true
  /\ originalEditValue (on_message parsed mid_edit) = "100"
  /\ wire (on_message parsed mid_edit) = [].
Proof.
  pose proof (incoming_message_changes_text_only
                (Ok (VObj (initial_state_message
                             [("amount", VStr "250");
                              ("name", VObj [("toString", VNull)])])))
                (run demo_client [DblClick 0; Input 0 "2"]) eq_refl)
    as (Hw & _ & Ho & _ & _ & He).
  split; [reflexivity|]. split; [reflexivity|].
  split; [exact (He 0)|]. split; [exact Ho | exact Hw].
Defined.

Lemma has_shape_spec (m : value) (tag : string) (cl : client) (type : value) :
  Get m "type" = Ok type ->
  has_shape m tag cl = (cl, Ok (shape m tag)).
Proof.
  intros Ht. unfold has_shape, shape, bind, lift, ret. rewrite Ht.
  assert (Hp : exists payload, Get m "payload" = Ok payload).
  { destruct m; simpl in *; try discriminate; eauto.
    destruct (own props "payload"); eauto. }
  destruct Hp as [payload ->].
  destruct (strict_eq_string type tag); reflexivity.
Qed.

(** X12.  A frame that is not JSON, a parsed value that is neither an
    [initial_state] nor an [update] with a truthy payload, and an
    [update] for a field no element is bound to leave every element as it
    is: the viewer tolerates them, changing the console only. *)
Theorem unrecognised_message_ignored (cl : client) :
  (forall e, document (on_message (Throw e) cl) = document cl)
  /\ (forall m,
        shape m "initial_state" = false -> shape m "update" = false ->
        document (on_message (Ok m) cl) = document cl)
  /\ (forall m f v,
        valid_update m = Some (f, v) ->
        selector_safe f = true ->
        find_field (document cl) f = None ->
        document (on_message (Ok m) cl) = document cl).
Proof.
  split; [reflexivity|]. split.
  - intros m Hi Hu. unfold on_message, process_message, exec, try_catch.
    unfold bind at 1. unfold lift at 1. unfold bind at 1. unfold effect at 1.
    destruct (Get m "type") as [type|e] eqn:Ht.
    + unfold bind at 1.
      rewrite (has_shape_spec m "initial_state" _ type Ht), Hi.
      unfold bind at 1.
      rewrite (has_shape_spec m "update" _ type Ht), Hu.
      reflexivity.
    + unfold bind at 1. unfold has_shape at 1. unfold bind at 1, lift at 1.
      rewrite Ht. reflexivity.
  - intros m f v. unfold valid_update.
    destruct m as [| | | | |?|props]; try discriminate.
    destruct (own props "type") as [[| | | |t| |]|] eqn:Ht; try discriminate.
    destruct (own props "payload") as [[| | | | | |payload]|] eqn:Hp;
      try discriminate.
    destruct (String.eqb_spec t "update") as [->|]; [|discriminate].
    destruct (own payload "field") as [[| | | |f'| |]|] eqn:Hf; try discriminate.
    destruct (own payload "value") as [[| | | |v'| |]|] eqn:Hv; try discriminate.
    intros Heq Hsafe Hfind. injection Heq as -> ->.
    unfold_onmessage. unfold querySelector. simpl.
    rewrite Ht, Hp. simpl. rewrite Hf, Hv. simpl.
    rewrite Hsafe, Hfind. reflexivity.
Qed.

Lemma forEach_app {A : Type} (f : A -> M client unit) (a b : list A) (cl : client) :
  forEach f (a ++ b) cl
  = match forEach f a cl with
    | (cl', Ok _) => forEach f b cl'
    | (cl', Throw e) => (cl', Throw e)
    end.
Proof.
  revert cl. induction a as [|x rest IH]; intros cl; simpl; [reflexivity|].
  unfold bind. destruct (f x cl) as [cl1 [[]|e]]; [apply IH | reflexivity].
Qed.

(** X13.  Hydration is not atomic.  When the value of an entry whose
    field is bound to an element cannot be converted to a text, the loop
    of line 278 stops there: the entries before it have been written, the
    elements of the entries after it are not, and the handler logs the
    failure instead of 'Initial state received and applied'. *)
Theorem hydration_stops_at_unconvertible_value
    (cl : client) (pre post : list (string * value))
    (data : list (string * string)) (k : string) (x : value)
    (i : nat) (e : js_error) :
  shared_state pre = Some data ->
  Forall (fun fv => selector_safe (fst fv) = true) data ->
  bound cl k i ->
  DOMString_of x = Throw e ->
  let m := VObj (initial_state_message (pre ++ (k, x) :: post)) in
  exists written,
    forEach hydrate_entry pre (log LogMessageReceived cl) = (written, Ok tt)
    /\ on_message (Ok m) cl = log (ErrMessageFailed e) written
    /\ (forall j,
          (forall fv, In fv data -> find_field (document cl) (fst fv) <> Some j) ->
          displayed (on_message (Ok m) cl) j = displayed cl j)
    /\ (NoDup (map fst data) ->
        forall f v j, In (f, v) data -> find_field (document cl) f = Some j ->
                      displayed (on_message (Ok m) cl) j = Some v).
Proof.
  intros Hss Hsafe [Hk Hi] Hx m.
  destruct (forEach_hydrate pre data (log LogMessageReceived cl) Hss Hsafe)
    as (written & Hrun & Hfind & _ & _ & _ & _ & _ & Hother & Hwritten).
  exists written. split; [exact Hrun|].
  assert (Hstop : hydrate_entry (k, x) written = (written, Throw e)).
  { unfold hydrate_entry, querySelector, bind, lift, read. simpl.
    rewrite Hk, Hfind. simpl. rewrite Hi, Hx. reflexivity. }
  assert (Heq : on_message (Ok m) cl = log (ErrMessageFailed e) written).
  { subst m. unfold on_message, process_message, has_shape,
      exec, try_catch, bind, lift, effect, read, ret.
    simpl. rewrite forEach_app, Hrun.
    change (forEach hydrate_entry ((k, x) :: post) written)
      with (bind (hydrate_entry (k, x))
                 (fun _ => forEach hydrate_entry post) written).
    unfold bind. rewrite Hstop. reflexivity. }
  split; [exact Heq|]. rewrite Heq. split.
  - intros j Hj. apply (Hother j Hj).
  - intros Hnd f v j Hin Hj. apply (Hwritten Hnd f v j Hin Hj).
Qed.

Lemma hydration_stops_at_unconvertible_value_witness :
  let m := VObj (initial_state_message
                   [("amount", VObj [("toString", VNull)]);
                    ("name", VStr "Ann")]) in
  bound demo_client "amount" 0
  /\ DOMString_of (VObj [("toString", VNull)]) = Throw TypeError
  /\ displayed (on_message (Ok m) demo_client) 1 = Some "Bob"
  /\ console (on_message (Ok m) demo_client)
     = [LogMessageReceived; ErrMessageFailed TypeError].
Proof.
  assert (Hb : bound demo_client "amount" 0) by (split; reflexivity).
  destruct (hydration_stops_at_unconvertible_value demo_client [] [("name", VStr "Ann")]
              [] "amount" (VObj [("toString", VNull)]) 0 TypeError
              eq_refl (Forall_nil _) Hb eq_refl)
    as (written & Hrun & Heq & Hother & _).
  split; [exact Hb|]. split; [reflexivity|]. split.
  - exact (Hother 1 (fun fv (H : In fv []) => match H with end)).
  - injection Hrun as <-. exact (f_equal console Heq).
Defined.

(* ------------------------------------------------------------------ *)
(** *** What the viewer sends *)
(* ------------------------------------------------------------------ *)

(** The frame a commit of element [el] sends. *)
Lemma finishEditing_wire (cl : client) (i : nat) :
  wire (finishEditing i cl) = wire cl
  \/ exists el,
       nth_error (document cl) i = Some el
       /\ contenteditable el = true
       /\ connected cl = true
       /\ trim (textContent el) <> ""
       /\ trim (textContent el) <> originalEditValue cl
       /\ wire (finishEditing i cl)
          = wire cl ++ [JSON_stringify
                          (update_message (VStr (data_field el))
                                          (VStr (trim (textContent el))))].
Proof.
  unfold finishEditing.
  destruct (nth_error (document cl) i) as [el|] eqn:Hnth; [|auto].
  destruct (contenteditable el) eqn:Hed; simpl; [|auto].
  change (connected (set_contenteditable i false cl)) with (connected cl).
  destruct (String.eqb_spec (trim (textContent el)) "") as [|Hne]; simpl; [auto|].
  destruct (String.eqb_spec (trim (textContent el)) (originalEditValue cl))
    as [|Hne']; simpl; [auto|].
  destruct (connected cl) eqn:Hc; simpl; [|auto].
  right. exists el. repeat split; auto.
Qed.

Lemma step_wire (cl : client) (e : event) :
  wire (step cl e) = wire cl
  \/ exists i el,
       is_commit e i
       /\ nth_error (document cl) i = Some el
       /\ contenteditable el = true
       /\ connected cl = true
       /\ trim (textContent el) <> ""
       /\ trim (textContent el) <> originalEditValue cl
       /\ wire (step cl e)
          = wire cl ++ [JSON_stringify
                          (update_message (VStr (data_field el))
                                          (VStr (trim (textContent el))))].
Proof.
  destruct e as [parsed|r|i|i k|i|i text]; simpl.
  - left. apply on_message_same_but_text.
  - left. destruct (ws cl); reflexivity.
  - left. unfold on_dblclick. destruct (nth_error (document cl) i) as [el|];
      [|reflexivity].
    destruct (contenteditable el || negb (connected cl)); reflexivity.
  - unfold on_keydown. destruct (nth_error (document cl) i) as [el0|] eqn:Hnth;
      [|auto].
    destruct k; [|auto|auto].
    destruct (finishEditing_wire cl i) as [H|(el & H)]; [auto|].
    right. exists i, el. split; [left; reflexivity | exact H].
  - destruct (finishEditing_wire cl i) as [H|(el & H)]; [auto|].
    right. exists i, el. split; [right; reflexivity | exact H].
  - left. destruct (editing cl i); reflexivity.
Qed.

(** X14.  The viewer hands a frame to [ws.send] in one situation only:
    a commit (the Enter key or the blur timer) of an element that is
    being edited, on a connected channel, with a trimmed text that is
    neither empty nor the captured value; the frame is then the [update]
    of that element's field with the trimmed text.  No other event, and
    no commit while disconnected, sends anything. *)
Theorem frames_sent_only_by_connected_commit (cl : client) (e : event) :
  wire (step cl e) <> wire cl ->
  exists i el,
    is_commit e i
    /\ nth_error (document cl) i = Some el
    /\ contenteditable el = true
    /\ connected cl = true
    /\ trim (textContent el) <> ""
    /\ trim (textContent el) <> originalEditValue cl
    /\ wire (step cl e)
       = wire cl ++ [JSON_stringify
                       (update_message (VStr (data_field el))
                                       (VStr (trim (textContent el))))].
Proof.
  intros Hchanged. destruct (step_wire cl e) as [H|H]; [contradiction|exact H].
Qed.

Lemma frames_sent_only_by_connected_commit_witness :
  let cl := run demo_client [DblClick 0; Input 0 " 250 "] in
  wire (step cl (KeyDown 0 Enter)) <> wire cl
  /\ exists i el,
       is_commit (KeyDown 0 Enter) i
       /\ nth_error (document cl) i = Some el
       /\ contenteditable el = true
       /\ connected cl = true
       /\ trim (textContent el) <> ""
       /\ trim (textContent el) <> originalEditValue cl
       /\ wire (step cl (KeyDown 0 Enter))
          = wire cl ++ [JSON_stringify
                          (update_message (VStr (data_field el))
                                          (VStr (trim (textContent el))))].
Proof.
  assert (H : wire (step (run demo_client [DblClick 0; Input 0 " 250 "])
                         (KeyDown 0 Enter))
              <> wire (run demo_client [DblClick 0; Input 0 " 250 "]))
    by (vm_compute; discriminate).
  split; [exact H|].
  exact (frames_sent_only_by_connected_commit _ _ H).
Defined.

(** *** trim *)

Lemma trim_start_no_leading (l : list ascii) : no_leading_space (trim_start l).
Proof.
  induction l as [|c rest IH]; simpl; [exact I|].
  destruct (is_space c) eqn:E; [exact IH | exact E].
Qed.

Lemma trim_start_fixed (l : list ascii) :
  no_leading_space l -> trim_start l = l.
Proof.
  destruct l as [|c rest]; simpl; [reflexivity|]. intros ->. reflexivity.
Qed.

Lemma trim_start_snoc (a : list ascii) (c : ascii) :
  is_space c = false -> exists a', trim_start (a ++ [c]) = a' ++ [c].
Proof.
  intros Hc. induction a as [|x rest [a' IH]]; simpl.
  - rewrite Hc. exists []. reflexivity.
  - destruct (is_space x); [exists a'; exact IH|].
    exists (x :: rest). reflexivity.
Qed.

Lemma trim_end_no_leading (l : list ascii) :
  no_leading_space l -> no_leading_space (rev (trim_start (rev l))).
Proof.
  destruct l as [|c rest]; [intros _; exact I|].
  simpl. intros Hc.
  destruct (trim_start_snoc (rev rest) c Hc) as [a' ->].
  rewrite rev_app_distr. simpl. exact Hc.
Qed.

Lemma trim_idempotent (s : string) : trim (trim s) = trim s.
Proof.
  unfold trim. rewrite list_ascii_of_string_of_list_ascii. f_equal.
  set (l1 := trim_start (list_ascii_of_string s)).
  assert (H1 : no_leading_space (rev (trim_start (rev l1))))
    by (apply trim_end_no_leading, trim_start_no_leading).
  rewrite (trim_start_fixed _ H1), rev_involutive.
  rewrite (trim_start_fixed (trim_start (rev l1)))
    by apply trim_start_no_leading.
  reflexivity.
Qed.

(** *** Invariants of the page *)

Lemma step_data_fields (cl : client) (e : event) :
  map data_field (document (step cl e)) = map data_field (document cl).
Proof.
  destruct e as [parsed|r|i|i k|i|i text]; simpl.
  - apply on_message_same_but_text.
  - destruct (ws cl); reflexivity.
  - unfold on_dblclick. destruct (nth_error (document cl) i) as [el|];
      [|reflexivity].
    destruct (contenteditable el || negb (connected cl)); simpl;
      rewrite ?map_update_nth by reflexivity; reflexivity.
  - unfold on_keydown, finishEditing.
    destruct (nth_error (document cl) i) as [el|]; [|reflexivity].
    destruct k; [|simpl; rewrite !map_update_nth by reflexivity; reflexivity
                 |reflexivity].
    destruct (contenteditable el); simpl; [|reflexivity].
    destruct (_ || _); simpl;
      [rewrite !map_update_nth by reflexivity; reflexivity|].
    destruct (connected _); simpl;
      rewrite !map_update_nth by reflexivity; reflexivity.
  - unfold finishEditing.
    destruct (nth_error (document cl) i) as [el|]; [|reflexivity].
    destruct (contenteditable el); simpl; [|reflexivity].
    destruct (_ || _); simpl;
      [rewrite !map_update_nth by reflexivity; reflexivity|].
    destruct (connected _); simpl;
      rewrite !map_update_nth by reflexivity; reflexivity.
  - destruct (editing cl i); simpl;
      rewrite ?map_update_nth by reflexivity; reflexivity.
Qed.

Lemma run_sent_frames (events : list event) : forall (cl : client) (fields : list string),
  map data_field (document cl) = fields ->
  (forall d, In d (wire cl) ->
             exists f v, In f fields /\ v <> "" /\ trimmed v
                         /\ d = JSON_stringify (update_message (VStr f) (VStr v))) ->
  forall d, In d (wire (run cl events)) ->
            exists f v, In f fields /\ v <> "" /\ trimmed v
                        /\ d = JSON_stringify (update_message (VStr f) (VStr v)).
Proof.
  unfold run. induction events as [|e rest IH]; intros cl fields Hf Hw; simpl;
    [exact Hw|].
  apply IH; [rewrite step_data_fields; exact Hf|].
  intros d Hd.
  destruct (step_wire cl e) as [H|(i & el & _ & Hnth & _ & _ & Hne & _ & H)];
    rewrite H in Hd; [auto|].
  apply in_app_or in Hd. destruct Hd as [Hd|[<-|[]]]; [auto|].
  exists (data_field el), (trim (textContent el)).
  split.
  { rewrite <- Hf. apply in_map. eapply nth_error_In. exact Hnth. }
  split; [exact Hne|]. split; [apply trim_idempotent | reflexivity].
Qed.

(** X15.  Every frame a viewer has sent since the page was loaded is the
    [update] of a field of one of its editable elements with a value that
    is not empty and has no white space at either end: the viewer never
    proposes an empty value, a padded one, or a field the page does not
    show. *)
Theorem sent_frames_are_trimmed_updates
    (doc : list element) (events : list event) (d : string) :
  In d (wire (run (initial_client doc) events)) ->
  exists f v,
    In f (map data_field doc)
    /\ v <> "" /\ trimmed v
    /\ d = JSON_stringify (update_message (VStr f) (VStr v)).
Proof.
  apply run_sent_frames; [reflexivity | intros x []].
Qed.

Lemma sent_frames_are_trimmed_updates_witness :
  In (JSON_stringify (update_message (VStr "amount") (VStr "250")))
     (wire (run (initial_client (document demo_client))
                [SocketState OPEN; DblClick 0; Input 0 " 250 "; BlurTimeout 0]))
  /\ exists f v,
       In f (map data_field (document demo_client))
       /\ v <> "" /\ trimmed v
       /\ JSON_stringify (update_message (VStr "amount") (VStr "250"))
          = JSON_stringify (update_message (VStr f) (VStr v)).
Proof.
  assert (H : In (JSON_stringify (update_message (VStr "amount") (VStr "250")))
                 (wire (run (initial_client (document demo_client))
                            [SocketState OPEN; DblClick 0; Input 0 " 250 ";
                             BlurTimeout 0])))
    by (left; reflexivity).
  split; [exact H|].
  exact (sent_frames_are_trimmed_updates _ _ _ H).
Defined.

(** *** Sessions *)

Lemma finishEditing_ends_edit (cl : client) (i : nat) :
  editing (finishEditing i cl) i = false.
Proof.
  unfold finishEditing, editing.
  destruct (nth_error (document cl) i) as [el|] eqn:Hnth; [|rewrite Hnth; reflexivity].
  destruct (contenteditable el) eqn:Hed; simpl; [|rewrite Hnth; exact Hed].
  destruct (_ || _); [|destruct (connected _)]; simpl;
    rewrite !nth_error_update_nth, !Nat.eqb_refl, Hnth; reflexivity.
Qed.

Lemma finishEditing_idle (cl : client) (i : nat) :
  editing cl i = false -> finishEditing i cl = cl.
Proof.
  unfold editing, finishEditing.
  destruct (nth_error (document cl) i) as [el|]; [|reflexivity].
  intros ->. reflexivity.
Qed.

(** X16.  A commit ends the edit, so a second commit of the same element
    does nothing: the blur timer that fires after an Enter commit, or a
    second blur timer, neither sends a second frame nor touches the
    page. *)
Theorem commit_is_idempotent (cl : client) (i : nat) :
  finishEditing i (finishEditing i cl) = finishEditing i cl
  /\ run cl [KeyDown i Enter; BlurTimeout i] = run cl [KeyDown i Enter]
  /\ run cl [BlurTimeout i; BlurTimeout i] = run cl [BlurTimeout i]
  /\ run cl [BlurTimeout i; KeyDown i Enter] = run cl [BlurTimeout i].
Proof.
  assert (H : finishEditing i (finishEditing i cl) = finishEditing i cl)
    by (apply finishEditing_idle, finishEditing_ends_edit).
  split; [exact H|]. unfold run. simpl. unfold on_keydown.
  repeat split.
  - destruct (nth_error (document cl) i) eqn:E; [exact H|].
    apply finishEditing_idle. unfold editing. rewrite E. reflexivity.
  - exact H.
  - destruct (nth_error (document (finishEditing i cl)) i); [exact H|reflexivity].
Qed.

Lemma on_dblclick_accepted (cl : client) (i : nat) (e : element) :
  nth_error (document cl) i = Some e ->
  contenteditable e = false ->
  connected cl = true ->
  on_dblclick i cl
  = set_contenteditable i true (set_originalEditValue (textContent e) cl).
Proof.
  intros Hnth Hidle Hconn. unfold on_dblclick. rewrite Hnth, Hidle, Hconn.
  reflexivity.
Qed.

(** X17.  One edit of an idle element on a connected channel, from the
    double-click to the commit.  When the typed text, trimmed, is empty
    or equal to the text the element had at the double-click, nothing is
    sent and the element shows that earlier text again.  Otherwise the
    [update] with the trimmed text is sent and the element keeps the
    typed text, untrimmed.  When the channel is lost before the commit,
    nothing is sent and the element shows the earlier text.  In every
    case the edit is over. *)
Theorem edit_session_outcome (cl : client) (i : nat) (e : element) (typed : string) :
  nth_error (document cl) i = Some e ->
  contenteditable e = false ->
  connected cl = true ->
  let newValue := trim typed in
  let online := run cl [DblClick i; Input i typed; KeyDown i Enter] in
  let offline :=
    run cl [DblClick i; Input i typed; SocketState CLOSED; KeyDown i Enter] in
  editing online i = false
  /\ editing offline i = false
  /\ (if String.eqb newValue "" || String.eqb newValue (textContent e)
      then wire online = wire cl /\ displayed online i = Some (textContent e)
      else wire online
           = wire cl ++ [JSON_stringify
                           (update_message (VStr (data_field e)) (VStr newValue))]
           /\ displayed online i = Some typed)
  /\ wire offline = wire cl
  /\ displayed offline i = Some (textContent e).
Proof.
  intros Hnth Hidle Hconn newValue online offline.
  set (e2 := {| data_field := data_field e; textContent := typed;
                contenteditable := true |}).
  set (cl2 := set_textContent i typed
                (set_contenteditable i true
                   (set_originalEditValue (textContent e) cl))).
  assert (Hnth2 : nth_error (document cl2) i = Some e2).
  { unfold cl2. simpl. rewrite !nth_error_update_nth, !Nat.eqb_refl, Hnth.
    reflexivity. }
  assert (Hinput : step (on_dblclick i cl) (Input i typed) = cl2).
  { rewrite (on_dblclick_accepted cl i e Hnth Hidle Hconn). simpl.
    unfold editing. simpl. rewrite nth_error_update_nth, Nat.eqb_refl, Hnth.
    reflexivity. }
  assert (Hws : exists r, ws cl = Some r).
  { unfold connected in Hconn. destruct (ws cl); [eauto|discriminate]. }
  destruct Hws as [r Hws].
  assert (Hon : online = finishEditing i cl2).
  { subst online.
    change (run cl [DblClick i; Input i typed; KeyDown i Enter])
      with (step (step (on_dblclick i cl) (Input i typed)) (KeyDown i Enter)).
    rewrite Hinput.
    change (step cl2 (KeyDown i Enter)) with (on_keydown i Enter cl2).
    unfold on_keydown. rewrite Hnth2. reflexivity. }
  assert (Hoff : offline = finishEditing i (set_ws (Some CLOSED) cl2)).
  { subst offline.
    change (run cl [DblClick i; Input i typed; SocketState CLOSED; KeyDown i Enter])
      with (step (step (step (on_dblclick i cl) (Input i typed))
                       (SocketState CLOSED)) (KeyDown i Enter)).
    rewrite Hinput.
    assert (Hlost : step cl2 (SocketState CLOSED) = set_ws (Some CLOSED) cl2).
    { unfold step. change (ws cl2) with (ws cl). rewrite Hws. reflexivity. }
    rewrite Hlost.
    change (step (set_ws (Some CLOSED) cl2) (KeyDown i Enter))
      with (on_keydown i Enter (set_ws (Some CLOSED) cl2)).
    unfold on_keydown.
    change (document (set_ws (Some CLOSED) cl2)) with (document cl2).
    rewrite Hnth2. reflexivity. }
  pose proof (finishEditing_spec cl2 i e2 Hnth2 eq_refl) as (Hed1 & _ & Hout1).
  pose proof (finishEditing_spec (set_ws (Some CLOSED) cl2) i e2 Hnth2 eq_refl)
    as (Hed2 & _ & Hout2).
  rewrite Hon, Hoff.
  split; [exact Hed1|]. split; [exact Hed2|].
  simpl in Hout1, Hout2. fold newValue in Hout1, Hout2.
  change (connected cl2) with (connected cl) in Hout1. rewrite Hconn in Hout1.
  split; [exact Hout1|].
  destruct (String.eqb newValue "" || String.eqb newValue (textContent e));
    exact Hout2.
Qed.

Lemma edit_session_outcome_witness :
  let online := run demo_client [DblClick 0; Input 0 " 250 "; KeyDown 0 Enter] in
  let offline := run demo_client [DblClick 0; Input 0 " 250 ";
                                  SocketState CLOSED; KeyDown 0 Enter] in
  connected demo_client = true
  /\ wire online = [JSON_stringify (update_message (VStr "amount") (VStr "250"))]
  /\ displayed online 0 = Some " 250 "
  /\ wire offline = []
  /\ displayed offline 0 = Some "100".
Proof.
  pose proof (edit_session_outcome demo_client 0
                {| data_field := "amount"; textContent := "100";
                   contenteditable := false |} " 250 "
                eq_refl eq_refl eq_refl)
    as (_ & _ & Hon & Hoffw & Hoffd).
  simpl in Hon. destruct Hon as [Honw Hond].
  split; [reflexivity|].
  split; [exact Honw|]. split; [exact Hond|].
  split; [exact Hoffw | exact Hoffd].
Defined.

Lemma step_typing_or_message (cl : client) (e : event) :
  typing_or_message e -> same_but_text cl (step cl e).
Proof.
  destruct e as [parsed|r|i|i k|i|i text]; simpl; try contradiction; intros _.
  - apply on_message_same_but_text.
  - destruct (editing cl i);
      [apply same_but_text_set_textContent | apply same_but_text_refl].
Qed.

Lemma run_typing_or_message (events : list event) : forall cl : client,
  Forall typing_or_message events -> same_but_text cl (run cl events).
Proof.
  unfold run. induction events as [|e rest IH]; intros cl Hall; simpl.
  - apply same_but_text_refl.
  - inversion Hall as [|x l He Hrest]; subst.
    eapply same_but_text_trans; [apply step_typing_or_message, He | apply IH, Hrest].
Qed.

Lemma same_but_text_nth (cl cl' : client) (i : nat) (e : element) :
  same_but_text cl cl' ->
  nth_error (document cl) i = Some e ->
  exists e', nth_error (document cl') i = Some e'
             /\ data_field e' = data_field e
             /\ contenteditable e' = contenteditable e.
Proof.
  intros (_ & _ & _ & Hf & Hc) Hnth.
  assert (H1 : nth_error (map data_field (document cl')) i = Some (data_field e))
    by (rewrite Hf, nth_error_map, Hnth; reflexivity).
  assert (H2 : nth_error (map contenteditable (document cl')) i
               = Some (contenteditable e))
    by (rewrite Hc, nth_error_map, Hnth; reflexivity).
  rewrite nth_error_map in H1, H2.
  destruct (nth_error (document cl') i) as [e'|]; [|discriminate].
  simpl in H1, H2. exists e'. repeat split; congruence.
Qed.

(** X18.  Cancelling restores the text captured at the double-click,
    whatever was typed and whatever the socket delivered in between
    (updates of any field, even a hydration that overwrote the element):
    after the Escape key the element shows the captured text, the edit is
    over, nothing has been sent, and the blur timer that follows changes
    nothing. *)
Theorem cancel_restores_after_typing_and_messages
    (cl : client) (i : nat) (e : element) (mid : list event) :
  nth_error (document cl) i = Some e ->
  contenteditable e = false ->
  connected cl = true ->
  Forall typing_or_message mid ->
  let cl' := run cl (DblClick i :: mid ++ [KeyDown i Escape]) in
  displayed cl' i = Some (textContent e)
  /\ editing cl' i = false
  /\ wire cl' = wire cl
  /\ step cl' (BlurTimeout i) = cl'.
Proof.
  intros Hnth Hidle Hconn Hmid cl'.
  set (cl1 := on_dblclick i cl).
  set (cl2 := run cl1 mid).
  assert (Hcl' : cl' = on_keydown i Escape cl2).
  { subst cl' cl2 cl1. unfold run. simpl. rewrite fold_left_app. reflexivity. }
  assert (H12 : same_but_text cl1 cl2) by (apply run_typing_or_message, Hmid).
  assert (Hnth1 : exists e1, nth_error (document cl1) i = Some e1).
  { unfold cl1. rewrite (on_dblclick_accepted cl i e Hnth Hidle Hconn). simpl.
    rewrite nth_error_update_nth, Nat.eqb_refl, Hnth. simpl. eauto. }
  destruct Hnth1 as [e1 Hnth1].
  destruct (same_but_text_nth cl1 cl2 i e1 H12 Hnth1) as (e2 & Hnth2 & _).
  destruct H12 as (Hw & _ & Ho & _).
  assert (Ho1 : originalEditValue cl2 = textContent e).
  { rewrite Ho. unfold cl1.
    rewrite (on_dblclick_accepted cl i e Hnth Hidle Hconn). reflexivity. }
  assert (Hw1 : wire cl2 = wire cl).
  { rewrite Hw. unfold cl1.
    rewrite (on_dblclick_accepted cl i e Hnth Hidle Hconn). reflexivity. }
  assert (Hed : editing cl' i = false).
  { rewrite Hcl'. unfold on_keydown, editing. rewrite Hnth2. simpl.
    rewrite !nth_error_update_nth, !Nat.eqb_refl, Hnth2. reflexivity. }
  split.
  { rewrite Hcl'. unfold on_keydown, displayed. rewrite Hnth2. simpl.
    rewrite !nth_error_update_nth, !Nat.eqb_refl, Hnth2. simpl.
    rewrite Ho1. reflexivity. }
  split; [exact Hed|]. split.
  { rewrite Hcl'. unfold on_keydown. rewrite Hnth2. exact Hw1. }
  simpl. apply finishEditing_idle. exact Hed.
Qed.

Lemma cancel_restores_after_typing_and_messages_witness :
  let mid := [Input 1 "Al";
              SocketMessage (Ok (VObj (initial_state_message
                                         [("name", VStr "Zed")])));
              Input 1 "Zedd"] in
  Forall typing_or_message mid
  /\ displayed (run demo_client (DblClick 1 :: mid)) 1 = Some "Zedd"
  /\ displayed (run demo_client (DblClick 1 :: mid ++ [KeyDown 1 Escape])) 1
     = Some "Bob".
Proof.
  assert (Hmid : Forall typing_or_message
                   [Input 1 "Al";
                    SocketMessage (Ok (VObj (initial_state_message
                                               [("name", VStr "Zed")])));
                    Input 1 "Zedd"])
    by (repeat constructor).
  pose proof (cancel_restores_after_typing_and_messages demo_client 1
                {| data_field := "name"; textContent := "Bob";
                   contenteditable := false |} _
                eq_refl eq_refl eq_refl Hmid) as (Hd & _).
  split; [exact Hmid|]. split; [reflexivity | exact Hd].
Defined.

(** X19.  While the channel is not connected and no element is being
    edited, the page is read-only: no double-click, Enter or other key,
    blur timer or typing changes an element, captures a value or sends a
    frame, in any number and order; a double-click is refused with a
    warning.  (The Escape key is left out: its listener writes the
    captured value without looking at the state of the element.) *)
Theorem offline_idle_page_is_read_only (cl : client) (events : list event) :
  connected cl = false ->
  all_idle cl ->
  Forall gesture_but_escape events ->
  let cl' := run cl events in
  document cl' = document cl
  /\ originalEditValue cl' = originalEditValue cl
  /\ wire cl' = wire cl
  /\ ws cl' = ws cl.
Proof.
  intros Hconn Hidle Hall. simpl.
  assert (Hed : forall c i, document c = document cl -> editing c i = false).
  { intros c i Hdoc. unfold editing. rewrite Hdoc.
    destruct (nth_error (document cl) i) as [el|] eqn:Hnth; [|reflexivity].
    unfold all_idle in Hidle. rewrite Forall_forall in Hidle.
    apply Hidle. eapply nth_error_In. exact Hnth. }
  assert (Hstep : forall c e,
             gesture_but_escape e ->
             document c = document cl -> ws c = ws cl ->
             document (step c e) = document c
             /\ originalEditValue (step c e) = originalEditValue c
             /\ wire (step c e) = wire c /\ ws (step c e) = ws c).
  { intros c e He Hdoc Hws.
    assert (Hc : connected c = false) by (unfold connected in *; rewrite Hws; exact Hconn).
    destruct e as [parsed|r|i|i k|i|i text]; simpl in He; try contradiction; simpl.
    - unfold on_dblclick. destruct (nth_error (document c) i) as [el|];
        [|repeat split].
      rewrite Hc, orb_true_r. repeat split.
    - unfold on_keydown. destruct (nth_error (document c) i) as [el|];
        [|repeat split].
      destruct k; try contradiction; [|repeat split].
      rewrite (finishEditing_idle c i (Hed c i Hdoc)). repeat split.
    - rewrite (finishEditing_idle c i (Hed c i Hdoc)). repeat split.
    - rewrite (Hed c i Hdoc). repeat split. }
  unfold run.
  assert (Hgen : forall c, document c = document cl -> ws c = ws cl ->
                           document (fold_left step events c) = document c
                           /\ originalEditValue (fold_left step events c)
                              = originalEditValue c
                           /\ wire (fold_left step events c) = wire c
                           /\ ws (fold_left step events c) = ws c).
  { induction Hall as [|e rest He _ IH]; intros c Hdoc Hws; simpl;
      [repeat split|].
    destruct (Hstep c e He Hdoc Hws) as (H1 & H2 & H3 & H4).
    destruct (IH (step c e)) as (K1 & K2 & K3 & K4); [congruence|congruence|].
    repeat split; congruence. }
  apply Hgen; reflexivity.
Qed.

Lemma offline_idle_page_is_read_only_witness :
  let cl := step demo_client (SocketState CLOSED) in
  let events := [DblClick 0; Input 0 "250"; KeyDown 0 Enter; BlurTimeout 1] in
  connected cl = false
  /\ document (run cl events) = document demo_client
  /\ wire (run cl events) = []
  /\ console (run cl events) = [WarnCannotEdit].
Proof.
  assert (Hidle : all_idle (step demo_client (SocketState CLOSED)))
    by (repeat constructor).
  assert (Hall : Forall gesture_but_escape
                   [DblClick 0; Input 0 "250"; KeyDown 0 Enter; BlurTimeout 1])
    by (repeat constructor).
  pose proof (offline_idle_page_is_read_only
                (step demo_client (SocketState CLOSED)) _ eq_refl Hidle Hall)
    as (Hdoc & _ & Hw & _).
  split; [reflexivity|]. split; [exact Hdoc|]. split; [exact Hw | reflexivity].
Defined.

End ClientFacts.

(* ================================================================== *)
(** ** Properties of reconnection and the popup *)
(* ================================================================== *)

Module PageFacts.
Import JS.
#[local] Open Scope list_scope.

(** *** Reconnection *)

Section ReconnectInvariant.
Import Reconnect.

Lemma nth_error_snoc (older : list ready_state) (last : ready_state) (s : nat) :
  nth_error (older ++ [last]) s
  = if Nat.ltb s (List.length older) then nth_error older s
    else if Nat.eqb s (List.length older) then Some last else None.
Proof.
  revert s. induction older as [|x xs IH]; intros [|s]; simpl; try reflexivity.
  - destruct s; reflexivity.
  - rewrite IH. reflexivity.
Qed.

Lemma set_nth_snoc (older : list ready_state) (last r : ready_state) :
  set_nth (List.length older) r (older ++ [last]) = older ++ [r].
Proof.
  induction older as [|x xs IH]; simpl; [reflexivity|]. rewrite IH. reflexivity.
Qed.

(** Among sockets of which all but the newest are closed, one that is not
    closed is the newest. *)
Lemma open_socket_is_newest (older : list ready_state) (last r : ready_state)
    (s : nat) :
  Forall (fun x => x = CLOSED) older ->
  nth_error (older ++ [last]) s = Some r ->
  r <> CLOSED ->
  s = List.length older /\ r = last.
Proof.
  intros Hold Hnth Hr. rewrite nth_error_snoc in Hnth.
  destruct (Nat.ltb s (List.length older)) eqn:Hlt.
  - apply nth_error_In in Hnth.
    rewrite Forall_forall in Hold. apply Hold in Hnth. contradiction.
  - destruct (Nat.eqb_spec s (List.length older)); [|discriminate].
    injection Hnth as <-. auto.
Qed.

Lemma constructor_accepts_hostname (loc : location) :
  constructor_accepts loc = true <-> hostname loc <> "".
Proof.
  unfold constructor_accepts.
  destruct (String.eqb_spec (hostname loc) "") as [->|Hne]; simpl.
  - split; [discriminate | intros H; contradiction].
  - split; auto.
Qed.

Lemma start_settled (loc : location) :
  constructor_accepts loc = true -> settled (start loc).
Proof.
  intros Hacc. unfold start, connectWebSocket. simpl. rewrite Hacc. simpl.
  exists [], CONNECTING. repeat split. constructor.
Qed.

Lemma step_settled (loc : location) (pg : page) (e : event) :
  constructor_accepts loc = true -> settled pg -> settled (step loc pg e).
Proof.
  intros Hacc (older & last & Hs & Hold & Hws & Ht).
  destruct e as [s|s|s|s|]; simpl.
  - destruct (nth_error (sockets pg) s) as [r|] eqn:Hnth;
      [|exists older, last; auto].
    destruct r; try (exists older, last; repeat split; assumption).
    rewrite Hs in Hnth.
    destruct (open_socket_is_newest _ _ _ _ Hold Hnth) as [-> <-]; [discriminate|].
    exists older, OPEN. simpl. rewrite Hs, set_nth_snoc. auto.
  - unfold close.
    destruct (nth_error (sockets pg) s) as [r|] eqn:Hnth;
      [|exists older, last; auto].
    rewrite Hs in Hnth.
    destruct r; try (exists older, last; repeat split; assumption);
      (destruct (open_socket_is_newest _ _ _ _ Hold Hnth) as [-> <-];
       [discriminate|];
       exists older, CLOSING; simpl; rewrite Hs, set_nth_snoc; auto).
  - destruct (nth_error (sockets pg) s); exists older, last; auto.
  - destruct (nth_error (sockets pg) s) as [r|] eqn:Hnth;
      [|exists older, last; auto].
    rewrite Hs in Hnth.
    destruct r; try (exists older, last; repeat split; assumption);
      (destruct (open_socket_is_newest _ _ _ _ Hold Hnth) as [-> <-];
       [discriminate|];
       exists older, CLOSED; simpl; rewrite Hs, set_nth_snoc;
       simpl in Ht; rewrite Ht; auto).
  - destruct (timers pg) as [|n] eqn:Hn;
      [exists older, last; rewrite Hn; auto|].
    assert (Hlast : last = CLOSED /\ n = 0).
    { destruct last; simpl in Ht; try discriminate. split; [reflexivity|lia]. }
    destruct Hlast as [-> ->].
    unfold connectWebSocket. simpl. rewrite Hws, Hs.
    rewrite nth_error_snoc, Nat.ltb_irrefl, Nat.eqb_refl. simpl.
    rewrite Hacc. simpl.
    exists (older ++ [CLOSED]), CONNECTING. repeat split.
    apply Forall_app. split; [exact Hold | repeat constructor].
Qed.

Lemma run_settled (loc : location) (events : list event) : forall pg : page,
  constructor_accepts loc = true -> settled pg -> settled (run loc pg events).
Proof.
  unfold run. induction events as [|e rest IH]; intros pg Hacc H; simpl;
    [exact H|].
  apply IH; [exact Hacc | apply step_settled; assumption].
Qed.

Lemma settled_live (pg : page) : settled pg -> live pg + timers pg = 1.
Proof.
  intros (older & last & Hs & Hold & _ & Ht). unfold live.
  rewrite Hs, filter_app, length_app, Ht.
  assert (Hnone : filter (fun r => negb (is_closed r)) older = []).
  { clear Hs. induction Hold as [|x xs Hx _ IH]; simpl; [reflexivity|].
    rewrite Hx. simpl. exact IH. }
  rewrite Hnone. simpl. destruct (is_closed last); reflexivity.
Qed.

Lemma start_never_connected (loc : location) :
  constructor_accepts loc = false -> never_connected (start loc).
Proof.
  intros Hacc. unfold start, connectWebSocket. simpl. rewrite Hacc.
  repeat split.
Qed.

Lemma step_never_connected (loc : location) (pg : page) (e : event) :
  never_connected pg -> never_connected (step loc pg e).
Proof.
  intros (Hs & Hws & Ht).
  destruct e as [s|s|s|s|]; simpl; unfold close; rewrite ?Hs, ?Ht;
    try (destruct s; simpl; repeat split; assumption).
  repeat split; assumption.
Qed.

Lemma run_never_connected (loc : location) (events : list event) :
  forall pg : page, never_connected pg -> never_connected (run loc pg events).
Proof.
  unfold run. induction events as [|e rest IH]; intros pg H; simpl; [exact H|].
  apply IH, step_never_connected, H.
Qed.

(** X8.  On a page loaded from a host, from the first
    [connectWebSocket] on and whatever the sockets do: the sockets that
    are not [CLOSED] and the pending reconnect timers add up to one, so
    there is never a second live channel and never a page with neither a
    live socket nor a reconnect on its way; every socket but the newest
    is [CLOSED] and [ws] holds the newest; and a reconnect timer that
    fires finds the socket in [ws] closed, so [connectWebSocket] adds one
    socket and closes none.  On a page with an empty host name the
    constructor throws in the first call: the page never has a socket or
    a timer, and [ws] stays [null]. *)
Theorem single_live_channel (loc : location) (events : list event) :
  let pg := run loc (start loc) events in
  (hostname loc <> "" ->
     live pg + timers pg = 1
     /\ settled pg
     /\ sockets (step loc pg ReconnectTimer)
        = sockets pg ++ (if Nat.eqb (timers pg) 0 then [] else [CONNECTING]))
  /\ (hostname loc = "" ->
        sockets pg = [] /\ ws pg = None /\ timers pg = 0 /\ live pg = 0).
Proof.
  intros pg. split.
  - intros Hhost. apply constructor_accepts_hostname in Hhost.
    assert (Hset : settled pg)
      by (apply run_settled; [exact Hhost | apply start_settled, Hhost]).
    split; [apply settled_live; exact Hset|]. split; [exact Hset|].
    destruct Hset as (older & last & Hs & Hold & Hws & Ht). simpl.
    destruct (timers pg) as [|n] eqn:Hn; simpl; [rewrite app_nil_r; reflexivity|].
    assert (Hlast : last = CLOSED) by (destruct last; simpl in Ht; congruence).
    subst last. unfold connectWebSocket. simpl. rewrite Hws, Hs.
    rewrite nth_error_snoc, Nat.ltb_irrefl, Nat.eqb_refl. simpl.
    rewrite Hhost. reflexivity.
  - intros Hhost.
    assert (Hacc : constructor_accepts loc = false)
      by (unfold constructor_accepts; rewrite Hhost; reflexivity).
    destruct (run_never_connected loc events (start loc)
                (start_never_connected loc Hacc)) as (Hs & Hws & Ht).
    fold pg in Hs, Hws, Ht. repeat split; try assumption.
    unfold live. rewrite Hs. reflexivity.
Qed.

End ReconnectInvariant.

(** *** The popup *)

Section PopupFacts.
Import Popup.

(** X9.  [openPopup] throws exactly when the page has neither the action
    span nor the message element: the fallback of line 212 is entered
    whenever the action span is missing, whether or not there is a message
    element to write to.  When it throws, [currentPopupAction] is already
    set while the popup is not shown and the redirect address is the old
    one; when it returns, the popup is shown with the action and the
    address of that action, and the message element is rewritten exactly
    when a span is missing. *)
Theorem openPopup_throws_without_fallback_target
    (els : elements) (amountText currencyText : option string)
    (action : string) (p : popup) :
  let q := fst (openPopup els amountText currencyText action p) in
  let how := snd (openPopup els amountText currencyText action p) in
  (how = Throw TypeError <->
     popupActionSpan els = false /\ popupMessageElement els = false)
  /\ (how = Throw TypeError \/ how = Ok tt)
  /\ currentPopupAction q = Some action
  /\ (how = Throw TypeError ->
        popup_active q = popup_active p
        /\ overlay_active q = overlay_active p
        /\ body_popup_open q = body_popup_open p
        /\ popupRedirectUrl q = popupRedirectUrl p
        /\ message_html q = message_html p)
  /\ (how = Ok tt ->
        popup_active q = true
        /\ aria_hidden q = Some "false"
        /\ body_popup_open q = true
        /\ popupRedirectUrl q = Some (redirect_for action)
        /\ (message_html q <> message_html p ->
              popupActionSpan els = false \/ popupAmountSpan els = false)).
Proof.
  unfold openPopup.
  destruct els as [ov [|] [|] [|]]; simpl;
    repeat split; auto; try discriminate; try tauto;
    try (intros [H1 H2]; discriminate);
    try (intros _ H; exfalso; apply H; reflexivity).
Qed.

(** X10.  A popup that [openPopup] has shown is closed by the Escape
    key exactly as by [closePopup]: hidden, [aria-hidden] true, page
    scrollable again, no action and no redirect address left, the texts
    written into the spans kept.  A second Escape, or a second
    [closePopup], changes nothing, and a key other than Escape leaves the
    shown popup as it is. *)
Theorem escape_closes_shown_popup
    (els : elements) (amountText currencyText : option string)
    (action key : string) (p : popup) :
  snd (openPopup els amountText currencyText action p) = Ok tt ->
  let shown := fst (openPopup els amountText currencyText action p) in
  let closed := on_document_keydown els "Escape" shown in
  closed = closePopup els shown
  /\ popup_active closed = false
  /\ aria_hidden closed = Some "true"
  /\ body_popup_open closed = false
  /\ currentPopupAction closed = None
  /\ popupRedirectUrl closed = None
  /\ (overlay els = true -> overlay_active shown = true
                             /\ overlay_active closed = false)
  /\ action_text closed = action_text shown
  /\ amount_text closed = amount_text shown
  /\ on_document_keydown els "Escape" closed = closed
  /\ closePopup els closed = closed
  /\ (key <> "Escape" -> on_document_keydown els key shown = shown).
Proof.
  unfold openPopup, on_document_keydown.
  destruct (_ && negb (popupMessageElement els)); simpl; [discriminate|].
  intros _. repeat split.
  - destruct (overlay els); [reflexivity|discriminate].
  - destruct (overlay els); simpl; [reflexivity|discriminate].
  - unfold closePopup. simpl. destruct (overlay els); reflexivity.
  - intros H. apply String.eqb_neq in H. rewrite H. reflexivity.
Qed.

Lemma escape_closes_shown_popup_witness :
  let els := {| overlay := true; popupActionSpan := false;
                popupAmountSpan := true; popupMessageElement := true |} in
  let p := {| currentPopupAction := None; popupRedirectUrl := None;
              action_text := "-"; amount_text := "-"; message_html := "-";
              overlay_active := false; popup_active := false;
              aria_hidden := None; body_popup_open := false;
              navigated_to := None |} in
  let shown := fst (openPopup els (Some " 100 ") None "Buy" p) in
  snd (openPopup els (Some " 100 ") None "Buy" p) = Ok tt
  /\ amount_text shown = "100 NGN"
  /\ popupRedirectUrl shown = Some "/buy-confirmation-page"
  /\ popup_active (on_document_keydown els "Escape" shown) = false
  /\ popupRedirectUrl (on_document_keydown els "Escape" shown) = None.
Proof.
  pose proof (escape_closes_shown_popup
                {| overlay := true; popupActionSpan := false;
                   popupAmountSpan := true; popupMessageElement := true |}
                (Some " 100 ") None "Buy" "Enter"
                {| currentPopupAction := None; popupRedirectUrl := None;
                   action_text := "-"; amount_text := "-"; message_html := "-";
                   overlay_active := false; popup_active := false;
                   aria_hidden := None; body_popup_open := false;
                   navigated_to := None |} eq_refl)
    as (_ & Hhidden & _ & _ & _ & Hurl & _).
  split; [reflexivity|]. split; [reflexivity|]. split; [reflexivity|].
  split; [exact Hhidden | exact Hurl].
Defined.

End PopupFacts.

End PageFacts.
